(** * NFTViewer: the asset-resolution pipeline of [NFTViewer.jsx]

    A shallow embedding of the decision logic of the React component
    [src/nft-viewer/src/components/NFTViewer.jsx]: URL normalisation
    ([ipfsToHttp]), the choice of the asset field of a metadata document,
    the render dispatch over the resolved asset URL, the two click handlers
    of the metadata panel, and the fetch-on-change effect with its
    [cancelled] flag.

    Conventions.
    - A JavaScript string is a [string]: the sequence of the bytes of its
      UTF-8 encoding, as Rocq string literals are.  Prefix, substring and
      first-occurrence search commute with that encoding.
    - A JavaScript value that comes out of [JSON.parse] (or is [undefined])
      is a [value]; a number is an IEEE 754 datum ([spec_float]), of which
      only its being zero or NaN and its identity are observed.
    - A function that may throw returns a [result]. *)

From Stdlib Require Import String Ascii ZArith.
From Stdlib.Floats Require Import SpecFloat.
From stdpp Require Import base option list gmap strings.

Set Warnings "-register-all,-clear-no-such-hyp".
Local Open Scope string_scope.

(** * Part I: the embedding *)

(** ** JavaScript strings *)

Module JsString.

(** [s.startsWith(p)] *)
Definition startsWith (s p : string) : bool := String.prefix p s.

(** [s.indexOf(p)]: the position of the first occurrence of [p]. *)
Definition indexOf (s p : string) : option nat := String.index 0 p s.

(** [s.includes(p)] *)
Definition includes (s p : string) : bool := bool_decide (is_Some (indexOf s p)).

(** [s.slice(i)] *)
Fixpoint slice (i : nat) (s : string) : string :=
  match i, s with
  | O, _ => s
  | S i', String _ s' => slice i' s'
  | S _, EmptyString => EmptyString
  end.

(** [s.replace(pat, rep)] for a string pattern [pat] and a replacement
    text [rep] without [$]: only the first occurrence of [pat] is
    replaced, and a string without occurrence is returned as it is. *)
Definition replace (s pat rep : string) : string :=
  match indexOf s pat with
  | Some i => String.substring 0 i s +:+ rep +:+ slice (i + String.length pat) s
  | None => s
  end.

(** [!!s]: the empty string is the only falsy string. *)
Definition truthy (s : string) : bool :=
  match s with EmptyString => false | String _ _ => true end.

(** [a || b] on strings. *)
Definition or (a b : string) : string := if truthy a then a else b.

End JsString.

(** ** JavaScript values and exceptions *)

Inductive value :=
| VUndefined
| VNull
| VBool (b : bool)
| VNum (d : spec_float)
| VStr (s : string)
| VArr (items : list value)
| VObj (fields : gmap string value).

(** [Boolean(v)] *)
Definition truthy (v : value) : bool :=
  match v with
  | VUndefined | VNull => false
  | VBool b => b
  | VNum (S754_zero _) | VNum S754_nan => false
  | VNum _ => true
  | VStr s => JsString.truthy s
  | VArr _ | VObj _ => true
  end.

(** [Object.is] on numbers: NaN is NaN, and the two zeros differ. *)
Definition same_number (a b : spec_float) : bool :=
  match a, b with
  | S754_zero s, S754_zero t | S754_infinity s, S754_infinity t => Bool.eqb s t
  | S754_nan, S754_nan => true
  | S754_finite s m e, S754_finite t n f => Bool.eqb s t && Pos.eqb m n && Z.eqb e f
  | _, _ => false
  end.

(** [Object.is(old, new)] where [new] was just produced by [JSON.parse] or
    is a literal: a fresh array or object is identical to no earlier value. *)
Definition same_value (old new : value) : bool :=
  match old, new with
  | VUndefined, VUndefined | VNull, VNull => true
  | VBool a, VBool b => Bool.eqb a b
  | VNum a, VNum b => same_number a b
  | VStr a, VStr b => String.eqb a b
  | _, _ => false
  end.

(** [v.k] for a property name [k] that no prototype defines: the field of an
    object, [undefined] on every other value that can be read from.  (Reading
    from [null] or [undefined] throws; the one reader, the effect on
    [metadata], returns before it on a falsy value.) *)
Definition get (v : value) (k : string) : value :=
  match v with
  | VObj fields => default VUndefined (fields !! k)
  | _ => VUndefined
  end.

Inductive exn :=
| Error (msg : string)
| TypeError (msg : string).

(** [err.message] *)
Definition message (e : exn) : string :=
  match e with Error m | TypeError m => m end.

Inductive result (A : Type) :=
| Ok (a : A)
| Throw (e : exn).
Arguments Ok {A} a.
Arguments Throw {A} e.

Definition bind {A B} (r : result A) (k : A → result B) : result B :=
  match r with Ok a => k a | Throw e => Throw e end.

(** ** Regular expressions

    The fragment of the regular-expression literals of the render dispatch:
    an alternation of sequences of characters, a parenthesised [.*] and [$],
    under the flag [i] and without the flags [g], [m], [s] and [u]. *)

Module RegExp.

Inductive atom :=
| Chr (c : ascii)    (* a pattern character *)
| AnyStar            (* [.*] in parentheses: the capture plays no part in whether there is a match *)
| End.               (* [$]: without the flag [m], the end of the input only *)

Definition sequence := list atom.

(** A disjunction [s1|s2|...]. *)
Definition regexp := list sequence.

Definition lit (s : string) : sequence := Chr <$> list_ascii_of_string s.

(** [Canonicalize] under the flag [i]: a character is compared through its
    upper case, and a character outside ASCII never canonicalizes to an ASCII
    character, so that, against the ASCII characters of a pattern, only the
    letters [a-z] fold. *)
Definition canonicalize (c : ascii) : ascii :=
  let n := nat_of_ascii c in
  if ((97 <=? n) && (n <=? 122))%nat then ascii_of_nat (n - 32) else c.

Definition chr_matches (p c : ascii) : bool :=
  Ascii.eqb (canonicalize p) (canonicalize c).

(** The line terminators, which [.] does not match: LF, CR, U+2028 and
    U+2029 (the latter two by their three bytes). *)
Definition line_terminator_at (s : string) : bool :=
  JsString.startsWith s (String "010"%char "")
  || JsString.startsWith s (String "013"%char "")
  || JsString.startsWith s (String "226"%char (String "128"%char (String "168"%char "")))
  || JsString.startsWith s (String "226"%char (String "128"%char (String "169"%char ""))).

(** Whether the sequence [p] matches a prefix of [s] (a suffix of the
    input), by backtracking. *)
Fixpoint match_here (p : sequence) (s : string) {struct p} : bool :=
  match p with
  | [] => true
  | Chr c :: p' =>
      match s with
      | String d s' => chr_matches c d && match_here p' s'
      | EmptyString => false
      end
  | End :: p' =>
      match s with
      | EmptyString => match_here p' s
      | String _ _ => false
      end
  | AnyStar :: p' =>
      (fix star (s : string) : bool :=
         match_here p' s
         || negb (line_terminator_at s)
            && match s with
               | String _ s' => star s'
               | EmptyString => false
               end) s
  end.

(** [s.match(re)] is not [null] (also [re.test(s)]): some alternative
    matches at some position of [s]. *)
Fixpoint test (re : regexp) (s : string) : bool :=
  existsb (λ p, match_here p s) re
  || match s with
     | String _ s' => test re s'
     | EmptyString => false
     end.

End RegExp.

(** ** URL normalisation (NFTViewer.jsx, lines 33-41) *)

Definition ipfsToHttp (url : string) : string :=
  if negb (JsString.truthy url) then url
  else if JsString.startsWith url "ipfs://" then
    JsString.replace url "ipfs://" "https://ipfs.io/ipfs/"
  else if JsString.includes url "ipfs/" && JsString.startsWith url "http" then url
  else url.

(** [ipfsToHttp] at an argument that need not be a string: a falsy value
    leaves through the first guard, a truthy value that is not a string has
    no [startsWith] method. *)
Definition ipfsToHttp_value (url : value) : result value :=
  match url with
  | VStr s => Ok (VStr (ipfsToHttp s))
  | _ =>
      if negb (truthy url) then Ok url
      else Throw (TypeError "url.startsWith is not a function")
  end.

(** ** Component state (lines 62-75) *)

(** The props that the fetch effect depends on. *)
Record Props := {
  metadataUrl : string;
  contractAddress : string;
  tokenId : string;
  providerUrl : string
}.

Global Instance Props_eq_dec : EqDecision Props.
Proof. solve_decision. Defined.

(** The three [useState] cells. *)
Record ViewerState := {
  metadata : value;
  assetUrl : string;
  error : option string
}.

Definition setMetadata (m : value) (v : ViewerState) : ViewerState :=
  {| metadata := m; assetUrl := assetUrl v; error := error v |}.
Definition setAssetUrl (u : string) (v : ViewerState) : ViewerState :=
  {| metadata := metadata v; assetUrl := u; error := error v |}.
Definition setError (e : option string) (v : ViewerState) : ViewerState :=
  {| metadata := metadata v; assetUrl := assetUrl v; error := e |}.

(** ** The asset field of a metadata document (lines 130-136) *)

Definition candidates (m : value) : list value :=
  [get m "animation_url"; get m "image"; get m "image_url"; get m "asset";
   get m "animation"].

(** [candidates.find(Boolean)]; [None] is the [undefined] of an
    unsuccessful search. *)
Definition first_candidate (m : value) : option value :=
  List.find truthy (candidates m).

(** The body of the effect on [metadata].  A truthy candidate that is not a
    string makes [ipfsToHttp] throw. *)
Definition metadata_effect (v : ViewerState) : result ViewerState :=
  if negb (truthy (metadata v)) then Ok v
  else
    match first_candidate (metadata v) with
    | Some first =>
        bind (ipfsToHttp_value first) (λ u,
          match u with
          | VStr s => Ok (setAssetUrl s v)
          | _ => Ok v   (* not reached: [first] is truthy *)
          end)
    | None => Ok v
    end.

(** The same body run from the closure of an earlier render: it reads the
    [metadata] [m] of the render that created it and writes [assetUrl] into
    the state cells [v] as they are when it runs. *)
Definition metadata_effect_with (m : value) (v : ViewerState) : result ViewerState :=
  if negb (truthy m) then Ok v
  else
    match first_candidate m with
    | Some first =>
        bind (ipfsToHttp_value first) (λ u,
          match u with
          | VStr s => Ok (setAssetUrl s v)
          | _ => Ok v   (* not reached: [first] is truthy *)
          end)
    | None => Ok v
    end.

(** ** Render dispatch (lines 160-183) *)

Module Patterns.
Import RegExp.
Local Open Scope list_scope.

(** [/\.gltf$|\.glb$|model\/( .* )gltf/i], the group written without the
    spaces *)
Definition model_re : regexp :=
  [lit ".gltf" ++ [End]; lit ".glb" ++ [End];
   lit "model/" ++ [AnyStar] ++ lit "gltf"].

(** [/\.png$|\.jpg$|\.jpeg$|\.webp$|image\//i] *)
Definition image_re : regexp :=
  [lit ".png" ++ [End]; lit ".jpg" ++ [End]; lit ".jpeg" ++ [End];
   lit ".webp" ++ [End]; lit "image/"].

(** [/\.gltf$|\.glb$|\.png$|\.jpg$|\.jpeg$|\.webp$|image\//i] *)
Definition embed_re : regexp :=
  [lit ".gltf" ++ [End]; lit ".glb" ++ [End]; lit ".png" ++ [End];
   lit ".jpg" ++ [End]; lit ".jpeg" ++ [End]; lit ".webp" ++ [End];
   lit "image/"].

End Patterns.

Inductive render_path :=
| ModelGLTF     (* <ModelGLTF url={assetUrl} /> *)
| ImagePlane    (* the <mesh> with the <img> *)
| EmbedFrame.   (* the <iframe> *)

Global Instance render_path_eq_dec : EqDecision render_path.
Proof. solve_decision. Defined.

Definition shows_model (assetUrl : string) : bool :=
  JsString.truthy assetUrl && RegExp.test Patterns.model_re assetUrl.

Definition shows_image (assetUrl : string) : bool :=
  JsString.truthy assetUrl && RegExp.test Patterns.image_re assetUrl.

Definition shows_embed (assetUrl : string) : bool :=
  JsString.truthy assetUrl && negb (RegExp.test Patterns.embed_re assetUrl).

(** The children that the three conditional expressions put under
    [<Suspense>], in source order. *)
Definition render_asset (assetUrl : string) : list render_path :=
  (if shows_model assetUrl then [ModelGLTF] else [])
  ++ (if shows_image assetUrl then [ImagePlane] else [])
  ++ (if shows_embed assetUrl then [EmbedFrame] else []).

(** ** Quick actions (lines 202-203) *)

(** What the two buttons act on: the text held by [navigator.clipboard]
    ([None] in a browser without the Clipboard API) and the browsing
    contexts opened so far, each with its URL and target. *)
Record Browser := {
  clipboard : option string;
  opened : list (string * string)
}.

(** [navigator.clipboard?.writeText(assetUrl || '')] *)
Definition copy_asset_url (assetUrl : string) (b : Browser) : Browser :=
  match clipboard b with
  | Some _ => {| clipboard := Some (JsString.or assetUrl ""); opened := opened b |}
  | None => b
  end.

(** [window.open(assetUrl, '_blank')] *)
Definition open_asset (assetUrl : string) (b : Browser) : Browser :=
  {| clipboard := clipboard b; opened := opened b ++ [(assetUrl, "_blank")] |}.

(** ** The fetch effect (lines 77-128) *)

Inductive provider :=
| JsonRpcProvider (url : string)
| Web3Provider.

(** Where an instance of the effect stands: at the [await] of
    [contract.tokenURI(tokenId)], at the [await] of [axios.get(fixed)], or
    with no promise outstanding. *)
Inductive phase :=
| Settled
| AwaitTokenURI (p : provider) (contract token : string)
| AwaitGet (fixed : string).

(** One run of the effect: its [cancelled] variable and its promise. *)
Record instance := {
  cancelled : bool;
  pending : phase
}.

Definition cancel (i : instance) : instance :=
  {| cancelled := true; pending := pending i |}.

Definition settle (i : instance) : instance :=
  {| cancelled := cancelled i; pending := Settled |}.

Definition await (ph : phase) (i : instance) : instance :=
  {| cancelled := cancelled i; pending := ph |}.

Definition no_provider_message : string :=
  "No provider available — provide providerUrl or connect MetaMask".

(** [fetchFromContract] up to its first [await]; [ethereum] tells whether
    [window.ethereum] is there. *)
Definition fetchFromContract (p : Props) (ethereum : bool) : result phase :=
  if negb (JsString.truthy (contractAddress p)) || negb (JsString.truthy (tokenId p))
  then Ok Settled
  else
    bind (if JsString.truthy (providerUrl p) then Ok (JsonRpcProvider (providerUrl p))
          else if ethereum then Ok Web3Provider
          else Throw (Error no_provider_message))
         (λ prov, Ok (AwaitTokenURI prov (contractAddress p) (tokenId p))).

(** [fetchFromMetadataUrl] up to its [await]. *)
Definition fetchFromMetadataUrl (p : Props) : result phase :=
  if negb (JsString.truthy (metadataUrl p)) then Ok Settled
  else Ok (AwaitGet (ipfsToHttp (metadataUrl p))).

(** [catch (err) { setError(err.message) }] *)
Definition catch (r : result phase) (v : ViewerState) : phase * ViewerState :=
  match r with
  | Ok ph => (ph, v)
  | Throw e => (Settled, setError (Some (message e)) v)
  end.

Inductive fetcher :=
| FetchFromMetadataUrl
| FetchFromContract.

(** Lines 122-123. *)
Definition dispatch (p : Props) : option fetcher :=
  if JsString.truthy (metadataUrl p) then Some FetchFromMetadataUrl
  else if JsString.truthy (contractAddress p) && JsString.truthy (tokenId p)
       then Some FetchFromContract
  else None.

(** The mounted component: its props, its state, every instance of the fetch
    effect so far (the last one is the current one) and whether [metadata]
    has changed since the effect on [metadata] last ran. *)
Record Component := {
  props : Props;
  view : ViewerState;
  instances : list instance;
  metadata_changed : bool
}.

Definition initial_view : ViewerState :=
  {| metadata := VNull; assetUrl := ""; error := None |}.

(** The cleanup of the current instance, then the body of the effect. *)
Definition fetch_effect (p : Props) (ethereum : bool) (c : Component) : Component :=
  let cleaned := alter cancel (pred (length (instances c))) (instances c) in
  let '(ph, v) :=
    match dispatch p with
    | Some FetchFromMetadataUrl => catch (fetchFromMetadataUrl p) initial_view
    | Some FetchFromContract => catch (fetchFromContract p ethereum) initial_view
    | None => (Settled, initial_view)
    end in
  {| props := p;
     view := v;
     instances := cleaned ++ [{| cancelled := false; pending := ph |}];
     metadata_changed :=
       metadata_changed c || negb (same_value (metadata (view c)) VNull) |}.

(** The first render: the state cells hold their initial values and both
    effects run; the one on [metadata] returns at once on [null]. *)
Definition mount (p : Props) (ethereum : bool) : Component :=
  fetch_effect p ethereum
    {| props := p; view := initial_view; instances := []; metadata_changed := false |}.

(** The effect on [metadata] runs when [metadata] has changed. *)
Definition flush (c : Component) : result Component :=
  if metadata_changed c then
    bind (metadata_effect (view c)) (λ v,
      Ok {| props := props c; view := v; instances := instances c;
            metadata_changed := false |})
  else Ok c.

(** A render with changed props.  The effects of its commit run in the order
    of their declaration.  First the fetch effect: cleanup, reset of the
    three cells, dispatch.  Then, if [metadata] had changed since the
    effect on it last ran, that effect, whose closure holds the [metadata]
    of the render, not the [null] that the reset has just queued; its
    [setAssetUrl] comes after the [setAssetUrl('')] of the reset.  The reset
    changes [metadata] unless it was [null], and then the effect on it is
    due again. *)
Definition rerender (p : Props) (ethereum : bool) (c : Component) : result Component :=
  let c1 := fetch_effect p ethereum c in
  bind (if metadata_changed c
        then metadata_effect_with (metadata (view c)) (view c1)
        else Ok (view c1)) (λ v,
    Ok {| props := p; view := v; instances := instances c1;
          metadata_changed := negb (same_value (metadata (view c)) VNull) |}).

Inductive event :=
| Render (p : Props) (ethereum : bool)   (* the parent renders the component *)
| TokenURI (id : nat) (uri : string)     (* [contract.tokenURI] fulfils *)
| Resolved (id : nat) (data : value)     (* [axios.get] fulfils with [res.data] *)
| Rejected (id : nat) (err : exn)        (* the awaited promise rejects *)
| Flush.                                 (* the pending effect on [metadata] runs *)

Definition update_instance (id : nat) (f : instance → instance) (c : Component)
    (v : ViewerState) (changed : bool) : Component :=
  {| props := props c; view := v; instances := alter f id (instances c);
     metadata_changed := metadata_changed c || changed |}.

(** One step of the component.  [None]: the event cannot happen in this
    state; [Some (Throw e)]: [e] escapes an effect and React unmounts the
    component.  [Render] is a render by the parent together with the effects
    of its commit: with the props unchanged only the effect on [metadata]
    can be due; [Flush] is the commit of a render that a state update
    caused. *)
Definition step (c : Component) (e : event) : option (result Component) :=
  match e with
  | Render p ethereum =>
      Some (if decide (props c = p) then flush c else rerender p ethereum c)
  | TokenURI id uri =>
      match pending <$> instances c !! id with
      | Some (AwaitTokenURI _ _ _) =>
          Some (Ok (update_instance id (await (AwaitGet (ipfsToHttp uri))) c (view c) false))
      | _ => None
      end
  | Resolved id data =>
      match instances c !! id with
      | Some {| cancelled := stale; pending := AwaitGet _ |} =>
          if stale then Some (Ok (update_instance id settle c (view c) false))
          else Some (Ok (update_instance id settle c (setMetadata data (view c))
                           (negb (same_value (metadata (view c)) data))))
      | _ => None
      end
  | Rejected id err =>
      match pending <$> instances c !! id with
      | Some (AwaitTokenURI _ _ _) | Some (AwaitGet _) =>
          Some (Ok (update_instance id settle c
                      (setError (Some (message err)) (view c)) false))
      | _ => None
      end
  | Flush => Some (flush c)
  end.

Fixpoint run (c : Component) (tr : list event) : option (result Component) :=
  match tr with
  | [] => Some (Ok c)
  | e :: tr' =>
      match step c e with
      | Some (Ok c') => run c' tr'
      | o => o
      end
  end.

Inductive reachable : Component → Prop :=
| reachable_mount p ethereum : reachable (mount p ethereum)
| reachable_step c e c' : reachable c → step c e = Some (Ok c') → reachable c'.

(** ** Vocabulary of the properties *)

(** [s] is [w] up to the case of ASCII letters. *)
Fixpoint ci_eqb (w s : string) : bool :=
  match w, s with
  | EmptyString, EmptyString => true
  | String a w', String b s' => RegExp.chr_matches a b && ci_eqb w' s'
  | _, _ => false
  end.

(** [url] ends in [ext], in any case. *)
Definition ends_with_ci (url ext : string) : Prop :=
  ∃ pre suf, url = pre +:+ suf ∧ ci_eqb ext suf = true.

(** [w] occurs in [url], in any case. *)
Definition contains_ci (url w : string) : Prop :=
  ∃ pre mid post, url = pre +:+ mid +:+ post ∧ ci_eqb w mid = true.

(** No line terminator starts at a byte of [mid], which [rest] follows. *)
Fixpoint dot_run (mid rest : string) : bool :=
  match mid with
  | EmptyString => true
  | String _ mid' =>
      negb (RegExp.line_terminator_at (mid +:+ rest)) && dot_run mid' rest
  end.

(** The content hint of a model: "model/" and, later on the same line,
    "gltf", in any case. *)
Definition has_model_hint (url : string) : Prop :=
  ∃ pre a mid b post,
    url = pre +:+ a +:+ mid +:+ b +:+ post
    ∧ ci_eqb "model/" a = true ∧ ci_eqb "gltf" b = true
    ∧ dot_run mid (b +:+ post) = true.

Definition model_extensions : list string := [".gltf"; ".glb"].
Definition image_extensions : list string := [".png"; ".jpg"; ".jpeg"; ".webp"].

(** [url] carries a recognized extension with further characters after it. *)
Definition extension_followed (url : string) : Prop :=
  ∃ ext pre mid post,
    ext ∈ (model_extensions ++ image_extensions)%list
    ∧ url = pre +:+ mid +:+ post ∧ ci_eqb ext mid = true ∧ post ≠ "".

(** [u] is what the effect on [metadata] derives from [m]: the normalised
    first truthy asset field, the empty string when [m] is absent or has
    none. *)
Definition derived_from (m : value) (u : string) : Prop :=
  if truthy m then
    match first_candidate m with
    | Some (VStr s) => u = ipfsToHttp s
    | Some _ => False
    | None => u = ""
    end
  else u = "".

(** The identifier of the current instance of the fetch effect. *)
Definition current (c : Component) : nat := pred (length (instances c)).

(** What holds of every state of the mounted component. *)
Record invariant (c : Component) : Prop := {
  (* the current instance, and no other, has its flag down *)
  inv_current : ∀ id inst,
    instances c !! id = Some inst → (cancelled inst = false ↔ id = current c);
  (* while the current instance has a promise outstanding, [metadata] is [null] *)
  inv_pending : ∀ inst,
    instances c !! current c = Some inst → pending inst ≠ Settled →
    metadata (view c) = VNull
}.

(** A fetched document awaits the effect on [metadata]: the effect is due
    and its body would not return at [if (!metadata)]. *)
Definition awaits_effect (c : Component) : bool :=
  metadata_changed c && truthy (metadata (view c)).

(** The states reached without a change of props being rendered while a
    document awaits the effect on [metadata]. *)
Inductive orderly : Component → Prop :=
| orderly_mount p ethereum : orderly (mount p ethereum)
| orderly_step c e c' :
    orderly c → step c e = Some (Ok c') →
    (∀ p ethereum, e = Render p ethereum → props c ≠ p → awaits_effect c = false) →
    orderly c'.

(** What holds of [assetUrl] in those states. *)
Record asset_invariant (c : Component) : Prop := {
  (* [assetUrl] never comes from an earlier [metadata] *)
  inv_asset :
    assetUrl (view c) = "" ∨ derived_from (metadata (view c)) (assetUrl (view c));
  (* once the effect on [metadata] has run, [assetUrl] is up to date *)
  inv_flushed :
    metadata_changed c = false →
    derived_from (metadata (view c)) (assetUrl (view c))
}.

(** The state cells at the end of a run that did not unmount the
    component. *)
Definition view_of (o : option (result Component)) : option ViewerState :=
  match o with
  | Some (Ok c) => Some (view c)
  | _ => None
  end.

(** ** Sample inputs *)

Definition request_1 : Props :=
  {| metadataUrl := "ipfs://Qm1/metadata.json"; contractAddress := "";
     tokenId := ""; providerUrl := "" |}.

Definition request_2 : Props :=
  {| metadataUrl := "https://h/2.json"; contractAddress := "";
     tokenId := ""; providerUrl := "" |}.

(** The props of the demo page, [App.jsx]. *)
Definition app_request : Props :=
  {| metadataUrl :=
       "https://gateway.pinata.cloud/ipfs/QmYwAPJzv5CZsnAzt8auVTL3QxP9Z7VN6x1p3XUqG4fV7n";
     contractAddress := ""; tokenId := ""; providerUrl := "" |}.

Definition contract_request : Props :=
  {| metadataUrl := ""; contractAddress := "0xabc"; tokenId := "1";
     providerUrl := "" |}.

(** [{"name":"Foo","image":"ipfs://Qm2/img.png"}] *)
Definition document_1 : value :=
  VObj {[ "name" := VStr "Foo"; "image" := VStr "ipfs://Qm2/img.png" ]}.

(** [{"name":"Bar","animation_url":"https://h/bar.glb"}] *)
Definition document_2 : value :=
  VObj {[ "name" := VStr "Bar"; "animation_url" := VStr "https://h/bar.glb" ]}.

(** [{"name":"Baz"}] *)
Definition document_3 : value := VObj {[ "name" := VStr "Baz" ]}.

(** Two requests, each document meeting the effect on [metadata] before
    the props change. *)
Definition two_requests : list event :=
  [Resolved 0 document_1; Flush; Render request_2 false; Resolved 1 document_2; Flush].

(** ** The metadata panel (lines 138-151 and 192-197)

    What the component function returns for the panel: the children
    expressions of the JSX, evaluated.  What React then does with a child
    that is an array or an object is not part of the component. *)

(** [v.k] where [v] may be [null] or [undefined], from which nothing can be
    read. *)
Definition read (v : value) (k : string) : result value :=
  match v with
  | VNull =>
      Throw (TypeError ("Cannot read properties of null (reading '" +:+ k +:+ "')"))
  | VUndefined =>
      Throw (TypeError ("Cannot read properties of undefined (reading '" +:+ k +:+ "')"))
  | _ => Ok (get v k)
  end.

(** [v?.k] *)
Definition read_opt (v : value) (k : string) : value :=
  match v with
  | VNull | VUndefined => VUndefined
  | _ => get v k
  end.

(** [a || b] *)
Definition or_value (a b : value) : value := if truthy a then a else b.

(** One attribute chip: its [key] and the two expressions around ": ". *)
Record chip := {
  chip_key : nat;
  chip_label : value;
  chip_value : value
}.

(** [(a, i) => <div key={i}>{a.trait_type || a.type}: {a.value}</div>] *)
Definition chip_of (i : nat) (a : value) : result chip :=
  bind (read a "trait_type") (λ t,
  bind (if truthy t then Ok t else read a "type") (λ label,
  bind (read a "value") (λ v,
  Ok {| chip_key := i; chip_label := label; chip_value := v |}))).

(** [items.map(f)], the callback taking the element and its index from [i]
    on; the first throw ends it. *)
Fixpoint map_chips (i : nat) (items : list value) : result (list chip) :=
  match items with
  | [] => Ok []
  | a :: rest =>
      bind (chip_of i a) (λ c,
      bind (map_chips (S i) rest) (λ cs, Ok (c :: cs)))
  end.

(** [metadata?.attributes && (<div>...</div>)]: the falsy value itself, or
    the chips. *)
Inductive attributes_child :=
| NoChips (v : value)
| Chips (l : list chip).

Definition attributes_of (metadata : value) : result attributes_child :=
  let attrs := read_opt metadata "attributes" in
  if truthy attrs then
    match attrs with
    | VArr items => bind (map_chips 0 items) (λ cs, Ok (Chips cs))
    | _ => Throw (TypeError "metadata.attributes.map is not a function")
    end
  else Ok (NoChips attrs).

Record meta_box := {
  title : value;
  description : value;
  attributes : attributes_child
}.

(** Lines 139-151. *)
Definition MetaBox (metadata : value) (tokenId : string) : result meta_box :=
  let t := or_value (read_opt metadata "name") (VStr ("Token " +:+ tokenId)) in
  let d := read_opt metadata "description" in
  bind (attributes_of metadata) (λ a,
  Ok {| title := t; description := d; attributes := a |}).

(** A child of the panel: one of its three elements, or the falsy value
    that an [&&] left in its place. *)
Inductive panel_child :=
| Skipped (v : value)
| ErrorLine (msg : string)
| LoadingLine
| MetaBoxElement (b : meta_box).

(** The [error] cell as a value. *)
Definition error_value (e : option string) : value :=
  match e with Some m => VStr m | None => VNull end.

(** Lines 194-196. *)
Definition metadata_panel (tokenId : string) (v : ViewerState)
    : result (list panel_child) :=
  let e := error_value (error v) in
  let c1 :=
    match error v with
    | Some m => if JsString.truthy m then ErrorLine m else Skipped e
    | None => Skipped e
    end in
  let c2 :=
    if truthy (metadata v) then Skipped (VBool false)
    else if truthy e then Skipped (VBool false)
    else LoadingLine in
  bind (if truthy (metadata v)
        then bind (MetaBox (metadata v) tokenId) (λ b, Ok (MetaBoxElement b))
        else Ok (Skipped (metadata v))) (λ c3,
  Ok [c1; c2; c3]).

(** What one call of the component function returns: the children of the
    canvas and, under [showMetadata], those of the panel. *)
Record rendering := {
  canvas : list render_path;
  panel : option (list panel_child)
}.

Definition render (showMetadata : bool) (c : Component) : result rendering :=
  bind (if showMetadata
        then bind (metadata_panel (tokenId (props c)) (view c)) (λ cs, Ok (Some cs))
        else Ok None) (λ p,
  Ok {| canvas := render_asset (assetUrl (view c)); panel := p |}).

(** [c] is an element, not a value left by an [&&]. *)
Definition is_element (c : panel_child) : bool :=
  match c with Skipped _ => false | _ => true end.

(** [a] is [null] or [undefined]. *)
Definition nullish (a : value) : bool :=
  match a with VNull | VUndefined => true | _ => false end.

(** The string with its letters [a-z] in upper case. *)
Fixpoint upper (s : string) : string :=
  match s with
  | EmptyString => EmptyString
  | String c s' => String (RegExp.canonicalize c) (upper s')
  end.

(** Every GET of the component goes to a normalised URL. *)
Definition normalised_gets (c : Component) : Prop :=
  ∀ id inst url,
    instances c !! id = Some inst → pending inst = AwaitGet url →
    JsString.startsWith url "ipfs://" = false.

(** Within the first request, an error and metadata exclude each other, and
    neither is there while the request is in flight. *)
Definition first_request_outcome (c : Component) : Prop :=
  length (instances c) = 1 →
  (error (view c) = None ∨ metadata (view c) = VNull)
  ∧ (∀ inst, instances c !! 0 = Some inst → pending inst ≠ Settled →
             error (view c) = None ∧ metadata (view c) = VNull).

(** No instance has a promise outstanding. *)
Definition idle (c : Component) : Prop :=
  ∀ id inst, instances c !! id = Some inst → pending inst = Settled.

(** * Part II: properties *)

Local Arguments append !s1 s2 / : simpl nomatch.

(** ** Strings *)

Section JsStringFacts.
Import JsString.

Lemma prefix_app p s : String.prefix p (p +:+ s) = true.
Proof.
  induction p as [|c p IH]; simpl.
  - by destruct s.
  - destruct (ascii_dec c c); [exact IH | congruence].
Qed.

Lemma prefix_inv p s : String.prefix p s = true → ∃ r, s = p +:+ r.
Proof.
  revert s. induction p as [|c p IH]; intros s.
  - by exists s.
  - destruct s as [|d s]; simpl; [done|].
    destruct (ascii_dec c d) as [->|]; [|done].
    intros H. destruct (IH s H) as [r ->]. by exists r.
Qed.

Lemma app_empty_r s : s +:+ "" = s.
Proof. induction s; simpl; congruence. Qed.

Lemma startsWith_app p s : startsWith (p +:+ s) p = true.
Proof. apply prefix_app. Qed.

Lemma startsWith_false p s : (∀ r, s ≠ p +:+ r) → startsWith s p = false.
Proof.
  intros H. unfold startsWith.
  destruct (String.prefix p s) eqn:E; [|done].
  destruct (prefix_inv _ _ E) as [r ->]. by destruct (H r).
Qed.

Lemma indexOf_prefix p s : indexOf (p +:+ s) p = Some 0.
Proof.
  unfold indexOf. generalize (prefix_app p s).
  destruct (p +:+ s) as [|c t]; intros H.
  - by destruct p.
  - cbn [String.index]. by rewrite H.
Qed.

Lemma slice_app p s : slice (String.length p) (p +:+ s) = s.
Proof. induction p as [|c p IH]; simpl; [by destruct s | exact IH]. Qed.

Lemma substring_0_0 s : String.substring 0 0 s = "".
Proof. by destruct s. Qed.

(** Replacing a pattern that the string starts with rewrites the prefix. *)
Lemma replace_prefix p rep s : replace (p +:+ s) p rep = rep +:+ s.
Proof.
  unfold replace. rewrite indexOf_prefix, substring_0_0. simpl.
  by rewrite slice_app.
Qed.

End JsStringFacts.

(** ** URL normalisation *)

Lemma ipfsToHttp_ipfs rest :
  ipfsToHttp ("ipfs://" +:+ rest) = "https://ipfs.io/ipfs/" +:+ rest.
Proof.
  unfold ipfsToHttp.
  rewrite startsWith_app.
  change (negb (JsString.truthy ("ipfs://" +:+ rest))) with false.
  cbv iota. apply replace_prefix.
Qed.

Lemma ipfsToHttp_other u : (∀ rest, u ≠ "ipfs://" +:+ rest) → ipfsToHttp u = u.
Proof.
  intros H. unfold ipfsToHttp.
  rewrite (startsWith_false _ _ H).
  by repeat case_match.
Qed.

Lemma gateway_not_ipfs rest r : "https://ipfs.io/ipfs/" +:+ rest ≠ "ipfs://" +:+ r.
Proof. discriminate. Qed.

(** The result of a normalisation is never rewritten again. *)
Lemma ipfsToHttp_fixed u r : ipfsToHttp u ≠ "ipfs://" +:+ r.
Proof.
  destruct (String.prefix "ipfs://" u) eqn:E.
  - destruct (prefix_inv _ _ E) as [rest ->].
    rewrite ipfsToHttp_ipfs. apply gateway_not_ipfs.
  - assert (H : ∀ rest, u ≠ "ipfs://" +:+ rest)
      by (intros ? ->; by rewrite prefix_app in E).
    rewrite (ipfsToHttp_other u H). apply H.
Qed.

(** C4: URL normalisation maps "ipfs://" + rest to
    "https://ipfs.io/ipfs/" + rest and returns every other string unchanged;
    among the latter are the empty string, the absent values [undefined]
    and [null], and a string that contains "ipfs/" under an HTTP scheme. *)
Theorem ipfsToHttp_spec (rest u : string) :
  ipfsToHttp ("ipfs://" +:+ rest) = "https://ipfs.io/ipfs/" +:+ rest
  ∧ ((∀ r, u ≠ "ipfs://" +:+ r) → ipfsToHttp u = u)
  ∧ ipfsToHttp "" = ""
  ∧ ipfsToHttp_value VUndefined = Ok VUndefined
  ∧ ipfsToHttp_value VNull = Ok VNull
  ∧ (JsString.startsWith u "http" = true → JsString.includes u "ipfs/" = true →
     ipfsToHttp u = u).
Proof.
  split_and!; try done.
  - apply ipfsToHttp_ipfs.
  - apply ipfsToHttp_other.
  - intros Hh _. apply ipfsToHttp_other. intros r ->.
    destruct r; discriminate Hh.
Qed.

Lemma ipfsToHttp_spec_witness :
  ipfsToHttp "ipfs://abc" = "https://ipfs.io/ipfs/abc"
  ∧ ipfsToHttp "https://x/ipfs/abc" = "https://x/ipfs/abc"
  ∧ ipfsToHttp "https://gateway.pinata.cloud/ipfs/Qm" = "https://gateway.pinata.cloud/ipfs/Qm".
Proof.
  split_and!.
  - exact (proj1 (ipfsToHttp_spec "abc" "")).
  - apply (proj1 (proj2 (ipfsToHttp_spec "" "https://x/ipfs/abc"))).
    intros r. discriminate.
  - apply (ipfsToHttp_spec "" "https://gateway.pinata.cloud/ipfs/Qm"); reflexivity.
Defined.

(** C5: URL normalisation is idempotent. *)
Theorem ipfsToHttp_idempotent (u : string) :
  ipfsToHttp (ipfsToHttp u) = ipfsToHttp u.
Proof. apply ipfsToHttp_other. intros r. apply ipfsToHttp_fixed. Qed.

(** ** Regular expressions *)

Section RegExpFacts.
Import RegExp.
Local Open Scope list_scope.

(** An alternation matches when one of its sides does. *)
Lemma test_app re1 re2 s : test (re1 ++ re2) s = test re1 s || test re2 s.
Proof.
  induction s as [|c s IH]; simpl; rewrite existsb_app.
  - by rewrite !orb_false_r.
  - rewrite IH. repeat (destruct (existsb _ _) || destruct (test _ _)); done.
Qed.

Lemma test_single p s :
  test [p] s = true ↔ ∃ pre suf, s = pre +:+ suf ∧ match_here p suf = true.
Proof.
  induction s as [|c s IH]; simpl; rewrite ?orb_false_r.
  - split.
    + intros H. by exists "", "".
    + intros (pre & suf & E & H). destruct pre, suf; try discriminate. done.
  - rewrite orb_true_iff, IH. split.
    + intros [H|(pre & suf & -> & H)].
      * by exists "", (String c s).
      * by exists (String c pre), suf.
    + intros (pre & suf & E & H). destruct pre as [|d pre]; simpl in E.
      * left. by rewrite E.
      * right. injection E as -> ->. by exists pre, suf.
Qed.

Lemma match_here_lit w q s :
  match_here (lit w ++ q) s = true ↔
  ∃ a r, s = a +:+ r ∧ ci_eqb w a = true ∧ match_here q r = true.
Proof.
  revert s. induction w as [|c w IH]; intros s.
  - split.
    + intros H. by exists "", s.
    + intros (a & r & -> & E & H). by destruct a.
  - change (lit (String c w) ++ q) with (Chr c :: (lit w ++ q)).
    destruct s as [|d s]; simpl.
    + split; [done|]. intros (a & r & E & H & _). by destruct a.
    + rewrite andb_true_iff, IH. split.
      * intros (Hc & a & r & -> & E & H). exists (String d a), r.
        simpl. by rewrite Hc, E.
      * intros (a & r & E & H & Hq). destruct a as [|d' a]; [done|].
        simpl in *. injection E as -> ->.
        apply andb_true_iff in H as [? ?]. split; [done|]. by exists a, r.
Qed.

Lemma match_here_end s : match_here [End] s = true ↔ s = "".
Proof. by destruct s. Qed.

Lemma match_here_star q s :
  match_here (AnyStar :: q) s = true ↔
  ∃ mid r, s = mid +:+ r ∧ dot_run mid r = true ∧ match_here q r = true.
Proof.
  induction s as [|c s IH].
  - simpl. rewrite orb_false_r. split.
    + intros H. by exists "", "".
    + intros (mid & r & E & _ & H). by destruct mid, r.
  - change (match_here (AnyStar :: q) (String c s))
      with (match_here q (String c s)
            || negb (line_terminator_at (String c s))
               && match_here (AnyStar :: q) s).
    rewrite orb_true_iff, andb_true_iff, IH. split.
    + intros [H|(Hlt & mid & r & -> & Hrun & H)].
      * by exists "", (String c s).
      * exists (String c mid), r. split_and!; [done| |done].
        cbn [dot_run]. by rewrite Hrun, andb_true_r.
    + intros (mid & r & E & Hrun & H). destruct mid as [|d mid].
      * left. simpl in E. by rewrite E.
      * right. simpl in E. injection E as -> ->.
        cbn [dot_run] in Hrun. apply andb_true_iff in Hrun as [Hlt Hrun].
        split; [done|]. by exists mid, r.
Qed.

(** [w$] finds a match exactly in the strings that end in [w]. *)
Lemma test_suffix w s : test [lit w ++ [End]] s = true ↔ ends_with_ci s w.
Proof.
  rewrite test_single. unfold ends_with_ci.
  split; intros (pre & suf & -> & H); exists pre, suf; (split; [done|]).
  - apply match_here_lit in H as (a & r & -> & E & ->%match_here_end).
    by rewrite app_empty_r.
  - apply match_here_lit. exists suf, "". by rewrite app_empty_r.
Qed.

(** [w] finds a match exactly in the strings that contain [w]. *)
Lemma test_contains w s : test [lit w] s = true ↔ contains_ci s w.
Proof.
  rewrite test_single. unfold contains_ci.
  split.
  - intros (pre & suf & -> & H). rewrite <- (app_nil_r (lit w)) in H.
    apply match_here_lit in H as (a & r & -> & E & _). by exists pre, a, r.
  - intros (pre & mid & post & -> & E). exists pre, (mid +:+ post).
    split; [done|]. rewrite <- (app_nil_r (lit w)).
    apply match_here_lit. by exists mid, post.
Qed.

Lemma test_model_hint s :
  test [lit "model/" ++ [AnyStar] ++ lit "gltf"] s = true ↔ has_model_hint s.
Proof.
  rewrite test_single. unfold has_model_hint. split.
  - intros (pre & suf & -> & H).
    apply match_here_lit in H as (a & r & -> & Ea & H).
    apply match_here_star in H as (mid & r' & -> & Hrun & H).
    rewrite <- (app_nil_r (lit "gltf")) in H.
    apply match_here_lit in H as (b & post & -> & Eb & _).
    by exists pre, a, mid, b, post.
  - intros (pre & a & mid & b & post & -> & Ea & Eb & Hrun).
    exists pre, (a +:+ mid +:+ b +:+ post). split; [done|].
    apply match_here_lit. exists a, (mid +:+ b +:+ post). split_and!; [done..|].
    apply match_here_star. exists mid, (b +:+ post). split_and!; [done..|].
    rewrite <- (app_nil_r (lit "gltf")). apply match_here_lit. by exists b, post.
Qed.

End RegExpFacts.

(** ** Render dispatch *)

Section RenderFacts.
Import RegExp Patterns.
Local Open Scope list_scope.

Lemma test_nil s : test [] s = false.
Proof. induction s; simpl; auto. Qed.

Lemma test_cons p re s : test (p :: re) s = test [p] s || test re s.
Proof. apply (test_app [p] re). Qed.

Lemma truthy_nonempty url : url ≠ "" → JsString.truthy url = true.
Proof. by destruct url. Qed.

(** The suffix alternatives of the three patterns, one extension each. *)
Lemma test_suffixes exts s :
  test ((λ ext, lit ext ++ [End]) <$> exts) s = true ↔
  ∃ ext, ext ∈ exts ∧ ends_with_ci s ext.
Proof.
  induction exts as [|e exts IH]; simpl.
  - rewrite test_nil. split; [done|]. intros (? & []%elem_of_nil & _).
  - rewrite test_cons, orb_true_iff, IH, test_suffix. split.
    + intros [H|(ext & ? & ?)]; [exists e | exists ext]; set_solver.
    + intros (ext & [->|?]%elem_of_cons & ?); eauto.
Qed.

Lemma shows_model_iff url :
  url ≠ "" →
  shows_model url = true ↔
  (∃ ext, ext ∈ model_extensions ∧ ends_with_ci url ext) ∨ has_model_hint url.
Proof.
  intros Hne. unfold shows_model. rewrite (truthy_nonempty _ Hne), andb_true_l.
  change model_re
    with (((λ ext, lit ext ++ [End]) <$> model_extensions)
          ++ [lit "model/" ++ [AnyStar] ++ lit "gltf"]).
  by rewrite test_app, orb_true_iff, test_suffixes, test_model_hint.
Qed.

Lemma shows_image_iff url :
  url ≠ "" →
  shows_image url = true ↔
  (∃ ext, ext ∈ image_extensions ∧ ends_with_ci url ext) ∨ contains_ci url "image/".
Proof.
  intros Hne. unfold shows_image. rewrite (truthy_nonempty _ Hne), andb_true_l.
  change image_re
    with (((λ ext, lit ext ++ [End]) <$> image_extensions) ++ [lit "image/"]).
  by rewrite test_app, orb_true_iff, test_suffixes, test_contains.
Qed.

Lemma shows_embed_iff url :
  url ≠ "" →
  shows_embed url = true ↔
  ¬ (∃ ext, ext ∈ model_extensions ++ image_extensions ∧ ends_with_ci url ext)
  ∧ ¬ contains_ci url "image/".
Proof.
  intros Hne. unfold shows_embed. rewrite (truthy_nonempty _ Hne), andb_true_l.
  change embed_re
    with (((λ ext, lit ext ++ [End]) <$> (model_extensions ++ image_extensions))
          ++ [lit "image/"]).
  rewrite negb_true_iff, test_app, orb_false_iff, <- !not_true_iff_false.
  by rewrite test_suffixes, test_contains.
Qed.

Lemma elem_of_render_asset url :
  (ModelGLTF ∈ render_asset url ↔ shows_model url = true)
  ∧ (ImagePlane ∈ render_asset url ↔ shows_image url = true)
  ∧ (EmbedFrame ∈ render_asset url ↔ shows_embed url = true).
Proof.
  unfold render_asset.
  destruct (shows_model url), (shows_image url), (shows_embed url);
    split_and!; set_solver.
Qed.

Lemma render_asset_sublist url :
  sublist (render_asset url) [ModelGLTF; ImagePlane; EmbedFrame].
Proof.
  unfold render_asset.
  destruct (shows_model url), (shows_image url), (shows_embed url); simpl;
    repeat (constructor || apply sublist_nil_l).
Qed.

End RenderFacts.

(** [H : false = true ↔ P] where [P] follows from the context. *)
Local Ltac contradict_with H :=
  assert (false = true) as [=] by (apply H; tauto).

(** X20: what the three conditions of the dispatch do guarantee.  For every
    non-empty asset URL at least one of the three render paths is selected,
    each at most once and in the order model, image, embed.  The model path
    is selected by a final .gltf or .glb or by the model hint, the image
    path by a final .png, .jpg, .jpeg or .webp or by "image/", in any case.
    The embed path is never selected together with the image path, nor for
    a URL that ends in .gltf or .glb, and exactly one path is selected when
    the model and the image patterns do not both match and a model match is
    one by extension. *)
Theorem render_asset_paths (url : string) :
  url ≠ "" →
  render_asset url ≠ []
  ∧ sublist (render_asset url) [ModelGLTF; ImagePlane; EmbedFrame]
  ∧ (ModelGLTF ∈ render_asset url ↔
     (∃ ext, ext ∈ model_extensions ∧ ends_with_ci url ext) ∨ has_model_hint url)
  ∧ (ImagePlane ∈ render_asset url ↔
     (∃ ext, ext ∈ image_extensions ∧ ends_with_ci url ext)
     ∨ contains_ci url "image/")
  ∧ (ImagePlane ∈ render_asset url → EmbedFrame ∉ render_asset url)
  ∧ ((∃ ext, ext ∈ model_extensions ∧ ends_with_ci url ext) →
     EmbedFrame ∉ render_asset url)
  ∧ (¬ (ModelGLTF ∈ render_asset url ∧ ImagePlane ∈ render_asset url) →
     (ModelGLTF ∈ render_asset url →
      ∃ ext, ext ∈ model_extensions ∧ ends_with_ci url ext) →
     length (render_asset url) = 1).
Proof.
  intros Hne.
  destruct (elem_of_render_asset url) as (HM & HI & HE).
  pose proof (shows_model_iff url Hne) as Hm.
  pose proof (shows_image_iff url Hne) as Hi.
  pose proof (shows_embed_iff url Hne) as He.
  rewrite HM, HI, HE, Hm, Hi, He.
  assert (Hall : (∃ ext, ext ∈ (model_extensions ++ image_extensions)%list
                         ∧ ends_with_ci url ext) ↔
                 (∃ ext, ext ∈ model_extensions ∧ ends_with_ci url ext)
                 ∨ (∃ ext, ext ∈ image_extensions ∧ ends_with_ci url ext)).
  { setoid_rewrite elem_of_app. naive_solver. }
  split_and!.
  - unfold render_asset.
    destruct (shows_model url), (shows_image url), (shows_embed url);
      simpl; try done.
    exfalso. assert (false = true) as [=]. apply He. rewrite Hall.
    split; [intros [?|?] | intros ?];
      [contradict_with Hm | contradict_with Hi | contradict_with Hi].
  - apply render_asset_sublist.
  - done.
  - done.
  - rewrite Hall. tauto.
  - rewrite Hall. tauto.
  - intros Hboth Hext. rewrite <- Hm, <- Hi in Hboth. rewrite <- Hm in Hext.
    unfold render_asset.
    destruct (shows_model url), (shows_image url), (shows_embed url);
      simpl; try done.
    + destruct Hboth. done.
    + destruct Hboth. done.
    + exfalso. destruct He as [He _]. destruct (He eq_refl) as [Hx _].
      apply Hx, Hall. left. by apply Hext.
    + exfalso. destruct He as [He _]. destruct (He eq_refl) as [Hx Hc].
      destruct Hi as [Hi _]. destruct (Hi eq_refl); [|done].
      apply Hx, Hall. by right.
    + exfalso. assert (false = true) as [=]. apply He. rewrite Hall.
      split; [intros [?|?] | intros ?];
      [contradict_with Hm | contradict_with Hi | contradict_with Hi].
Qed.

Lemma render_asset_paths_witness :
  render_asset "https://h/robot.glb" ≠ []
  ∧ length (render_asset "https://h/robot.glb") = 1.
Proof.
  pose proof (render_asset_paths "https://h/robot.glb") as H.
  split.
  - apply H. discriminate.
  - apply H; [discriminate | |].
    { change (render_asset "https://h/robot.glb") with [ModelGLTF].
      by intros [_ ?%list_elem_of_singleton]. }
    intros _. exists ".glb". split; [set_solver|].
    by exists "https://h/robot", ".glb".
Defined.

(** C2: the dispatch does not select exactly one path.  Its three
    conditions are separate [&&] expressions; the third one, the fallback,
    excludes the model and image extensions and "image/" but not the model
    hint, and nothing keeps the image path from a URL of the model path.  A
    URL that contains "image/" and ends in .glb is rendered as a model and
    as an image; a URL that only the hint sends to the model path is
    rendered as a model and embedded in the iframe as well. *)
Theorem render_dispatch_overlaps :
  "https://ipfs.io/ipfs/QmX/image/robot.glb" ≠ ""
  ∧ render_asset "https://ipfs.io/ipfs/QmX/image/robot.glb" = [ModelGLTF; ImagePlane]
  ∧ "data:model/gltf+json;base64,e30=" ≠ ""
  ∧ render_asset "data:model/gltf+json;base64,e30=" = [ModelGLTF; EmbedFrame]
  ∧ render_asset "https://ipfs.io/ipfs/QmX/robot.glb" = [ModelGLTF]
  ∧ render_asset "https://ipfs.io/ipfs/QmX/image/robot.png" = [ImagePlane]
  ∧ render_asset "data:text/html;base64,e30=" = [EmbedFrame].
Proof. split_and!; first [discriminate | reflexivity]. Qed.

(** C10: extension matching is anchored to the end of the URL.  A non-empty
    URL that does not itself end in a recognized model or image extension,
    whatever extensions occur earlier in it, and that contains neither
    "image/" nor the model hint (in any case) selects the generic-embed path
    and no other. *)
Theorem embed_unless_final_extension (url : string) :
  url ≠ "" →
  (∀ ext, ext ∈ (model_extensions ++ image_extensions)%list → ¬ ends_with_ci url ext) →
  ¬ contains_ci url "image/" →
  ¬ has_model_hint url →
  render_asset url = [EmbedFrame].
Proof.
  intros Hne Hext Himg Hhint.
  pose proof (shows_model_iff url Hne) as Hm.
  pose proof (shows_image_iff url Hne) as Hi.
  pose proof (shows_embed_iff url Hne) as He.
  unfold render_asset.
  destruct (shows_model url).
  { exfalso. destruct Hm as [[(ext & Hin & H)|H] _]; [done| |done].
    apply (Hext ext); [apply elem_of_app|]; auto. }
  destruct (shows_image url).
  { exfalso. destruct Hi as [[(ext & Hin & H)|H] _]; [done| |done].
    apply (Hext ext); [apply elem_of_app|]; auto. }
  destruct (shows_embed url); [done|].
  assert (false = true) as [=]. apply He. split; [|done].
  intros (ext & Hin & H). by apply (Hext ext).
Qed.

Lemma embed_unless_final_extension_witness :
  render_asset "https://h/a.png?x=1" = [EmbedFrame].
Proof.
  apply embed_unless_final_extension.
  - discriminate.
  - intros ext Hin H%(test_suffix ext).
    repeat (apply elem_of_cons in Hin as [->|Hin]; [by vm_compute in H|]).
    by apply elem_of_nil in Hin.
  - intros H%test_contains. by vm_compute in H.
  - intros H%test_model_hint. by vm_compute in H.
Defined.

(** C10, as stated, fails: in "https://h/a.jpg.webp" the extension .jpg is
    followed by further characters and there is no hint, yet the image path
    is selected, because the URL ends in .webp. *)
Lemma extension_followed_not_embed :
  "https://h/a.jpg.webp" ≠ ""
  ∧ extension_followed "https://h/a.jpg.webp"
  ∧ ¬ contains_ci "https://h/a.jpg.webp" "image/"
  ∧ ¬ has_model_hint "https://h/a.jpg.webp"
  ∧ render_asset "https://h/a.jpg.webp" = [ImagePlane].
Proof.
  split_and!.
  - discriminate.
  - exists ".jpg", "https://h/a", ".jpg", ".webp".
    split_and!; [set_solver | done | done | discriminate].
  - intros H%test_contains. by vm_compute in H.
  - intros H%test_model_hint. by vm_compute in H.
  - reflexivity.
Qed.

(** ** The asset field *)

Lemma find_first {A} (f : A → bool) (l : list A) (v : A) :
  List.find f l = Some v ↔
  ∃ i, l !! i = Some v ∧ f v = true ∧ ∀ j w, j < i → l !! j = Some w → f w = false.
Proof.
  induction l as [|x l IH]; simpl.
  - split; [done|]. by intros (i & ? & _).
  - destruct (f x) eqn:E.
    + split.
      * intros [= <-]. exists 0. split_and!; [done..|]. lia.
      * intros ([|i] & Hi & Hv & Hlt).
        -- by injection Hi as ->.
        -- specialize (Hlt 0 x). rewrite E in Hlt. discriminate Hlt; [lia|done].
    + rewrite IH. split.
      * intros (i & Hi & Hv & Hlt). exists (S i). split_and!; [done..|].
        intros [|j] w Hj Hw; [by injection Hw as <-|].
        apply (Hlt j); [lia|done].
      * intros ([|i] & Hi & Hv & Hlt).
        -- injection Hi as ->. congruence.
        -- exists i. split_and!; [done..|].
           intros j w Hj Hw. apply (Hlt (S j)); [lia|done].
Qed.

Lemma find_nothing {A} (f : A → bool) (l : list A) :
  List.find f l = None ↔ ∀ w, w ∈ l → f w = false.
Proof.
  induction l as [|x l IH]; simpl.
  - split; [|done]. by intros _ w ?%elem_of_nil.
  - destruct (f x) eqn:E.
    + split; [done|]. intros H. rewrite H in E; [done|]. by left.
    + rewrite IH. split.
      * intros H w [->|?]%elem_of_cons; auto.
      * intros H w ?. apply H. by right.
Qed.

(** C3: the raw asset field is the first truthy one in the order
    animation_url, image, image_url, asset, animation; for the metadata
    {image: "a.png", animation_url: "b.glb"} it is "b.glb", which is
    normalised to itself and selects the model path. *)
Theorem first_candidate_priority (m : value) :
  candidates m
    = get m <$> ["animation_url"; "image"; "image_url"; "asset"; "animation"]
  ∧ (∀ v, first_candidate m = Some v ↔
          ∃ i, candidates m !! i = Some v ∧ truthy v = true
               ∧ ∀ j w, j < i → candidates m !! j = Some w → truthy w = false)
  ∧ (first_candidate m = None ↔ ∀ w, w ∈ candidates m → truthy w = false)
  ∧ first_candidate (VObj {[ "image" := VStr "a.png"; "animation_url" := VStr "b.glb" ]})
      = Some (VStr "b.glb")
  ∧ ipfsToHttp "b.glb" = "b.glb"
  ∧ render_asset "b.glb" = [ModelGLTF].
Proof.
  split_and!; try reflexivity.
  - intros v. apply find_first.
  - apply find_nothing.
Qed.

Lemma first_candidate_priority_witness :
  first_candidate (VObj {[ "animation_url" := VStr ""; "image" := VStr "ipfs://Qm2/img.png" ]})
    = Some (VStr "ipfs://Qm2/img.png").
Proof.
  apply (first_candidate_priority
           (VObj {[ "animation_url" := VStr ""; "image" := VStr "ipfs://Qm2/img.png" ]})).
  exists 1. split_and!; [reflexivity..|].
  intros [|j] w Hj; [|lia]. by intros [= <-].
Defined.

(** ** Quick actions *)

(** C8: on an empty asset URL the copy action still writes to the
    clipboard, the empty string (it changes nothing only in a browser without
    the Clipboard API, or when the clipboard already holds the empty string),
    and the open action still opens a browsing context, an empty one. *)
Theorem quick_actions_on_empty_url (b : Browser) :
  clipboard (copy_asset_url "" b) = (λ _, "") <$> clipboard b
  ∧ opened (copy_asset_url "" b) = opened b
  ∧ (copy_asset_url "" b = b ↔ clipboard b = None ∨ clipboard b = Some "")
  ∧ clipboard (open_asset "" b) = clipboard b
  ∧ opened (open_asset "" b) = (opened b ++ [("", "_blank")])%list
  ∧ open_asset "" b ≠ b.
Proof.
  destruct b as [[text|] wins]; unfold copy_asset_url; simpl;
    split_and!; try done.
  - split; [intros [= <-]; by right | by intros [?|[= ->]]].
  - intros [= H]. apply (f_equal length) in H. rewrite length_app in H.
    simpl in H. lia.
  - split; [by left | done].
  - intros [= H]. apply (f_equal length) in H. rewrite length_app in H.
    simpl in H. lia.
Qed.

(** C8, as stated, fails: with the asset URL empty, the copy action
    replaces the text on the clipboard and the open action opens a browsing
    context. *)
Lemma quick_actions_not_noops :
  copy_asset_url "" {| clipboard := Some "0xabc"; opened := [] |}
    = {| clipboard := Some ""; opened := [] |}
  ∧ copy_asset_url "" {| clipboard := Some "0xabc"; opened := [] |}
    ≠ {| clipboard := Some "0xabc"; opened := [] |}
  ∧ open_asset "" {| clipboard := Some "0xabc"; opened := [] |}
    = {| clipboard := Some "0xabc"; opened := [("", "_blank")] |}
  ∧ open_asset "" {| clipboard := Some "0xabc"; opened := [] |}
    ≠ {| clipboard := Some "0xabc"; opened := [] |}.
Proof. split_and!; try reflexivity; discriminate. Qed.

(** ** The fetch effect *)

Lemma catch_view r v :
  metadata (catch r v).2 = metadata v ∧ assetUrl (catch r v).2 = assetUrl v.
Proof. by destruct r. Qed.

Lemma fetch_effect_instances p ethereum c :
  ∃ ph, instances (fetch_effect p ethereum c)
        = (alter cancel (current c) (instances c)
           ++ [{| cancelled := false; pending := ph |}])%list.
Proof.
  unfold fetch_effect.
  destruct (match dispatch p with
            | Some FetchFromMetadataUrl => _ | Some FetchFromContract => _
            | None => _ end) as [ph v].
  by exists ph.
Qed.

Lemma fetch_effect_view p ethereum c :
  metadata (view (fetch_effect p ethereum c)) = VNull
  ∧ assetUrl (view (fetch_effect p ethereum c)) = "".
Proof.
  unfold fetch_effect.
  destruct (dispatch p) as [[]|]; [| |done].
  - pose proof (catch_view (fetchFromMetadataUrl p) initial_view) as H.
    by destruct (catch _ _).
  - pose proof (catch_view (fetchFromContract p ethereum) initial_view) as H.
    by destruct (catch _ _).
Qed.

(** C9: when a direct metadata URL is present the effect calls
    [fetchFromMetadataUrl] and nothing else: the new instance awaits the GET
    of the normalised URL and no error is recorded, whatever the contract
    props are.  [fetchFromContract] is called exactly when there is no direct
    URL and both the contract address and the token id are present, and only
    then does an instance await [tokenURI]. *)
Theorem dispatch_priority (p : Props) (ethereum : bool) (c : Component) :
  (metadataUrl p ≠ "" →
   dispatch p = Some FetchFromMetadataUrl
   ∧ view (fetch_effect p ethereum c) = initial_view
   ∧ last (instances (fetch_effect p ethereum c))
     = Some {| cancelled := false; pending := AwaitGet (ipfsToHttp (metadataUrl p)) |})
  ∧ (dispatch p = Some FetchFromContract ↔
     metadataUrl p = "" ∧ contractAddress p ≠ "" ∧ tokenId p ≠ "")
  ∧ (∀ inst prov a t,
       last (instances (fetch_effect p ethereum c)) = Some inst →
       pending inst = AwaitTokenURI prov a t →
       metadataUrl p = "" ∧ contractAddress p ≠ "" ∧ tokenId p ≠ "").
Proof.
  destruct p as [mu ca ti pu]. unfold fetch_effect, dispatch. simpl.
  split_and!.
  - intros Hmu. destruct mu; [done|]. simpl. by rewrite last_snoc.
  - destruct mu, ca, ti; simpl; naive_solver.
  - intros inst prov a t.
    destruct mu, ca, ti; simpl; rewrite ?last_snoc; try by intros [= <-].
    unfold fetchFromContract; simpl.
    destruct pu; [destruct ethereum|]; simpl; rewrite last_snoc; by intros [= <-].
Qed.

Lemma dispatch_priority_witness :
  dispatch {| metadataUrl := "ipfs://Qm/metadata.json"; contractAddress := "0xabc";
              tokenId := "1"; providerUrl := "" |}
    = Some FetchFromMetadataUrl
  ∧ dispatch {| metadataUrl := ""; contractAddress := "0xabc"; tokenId := "1";
                providerUrl := "" |}
    = Some FetchFromContract.
Proof.
  split.
  - apply (dispatch_priority
             {| metadataUrl := "ipfs://Qm/metadata.json"; contractAddress := "0xabc";
                tokenId := "1"; providerUrl := "" |}
             false
             (mount {| metadataUrl := ""; contractAddress := ""; tokenId := "";
                       providerUrl := "" |} false)).
    discriminate.
  - apply (dispatch_priority
             {| metadataUrl := ""; contractAddress := "0xabc"; tokenId := "1";
                providerUrl := "" |}
             false
             (mount {| metadataUrl := ""; contractAddress := ""; tokenId := "";
                       providerUrl := "" |} false)).
    split_and!; [reflexivity | discriminate | discriminate].
Defined.

(** ** Steps of the component *)

Lemma metadata_effect_with_view v : metadata_effect_with (metadata v) v = metadata_effect v.
Proof. reflexivity. Qed.

Lemma derived_from_falsy m u : truthy m = false → derived_from m u ↔ u = "".
Proof. intros H. unfold derived_from. by rewrite H. Qed.

(** The effect writes [assetUrl] and nothing else; over an empty [assetUrl]
    it leaves what it derives from the [metadata] of its closure. *)
Lemma metadata_effect_with_ok m v v' :
  metadata_effect_with m v = Ok v' →
  metadata v' = metadata v ∧ error v' = error v
  ∧ (truthy m = false → v' = v)
  ∧ (assetUrl v = "" ∨ derived_from m (assetUrl v) → derived_from m (assetUrl v')).
Proof.
  unfold metadata_effect_with, derived_from.
  destruct (truthy m) eqn:Et; simpl;
    [|intros [= <-]; split_and!; try done; by intros [?|?]].
  destruct (first_candidate m) as [first|] eqn:Ef.
  - destruct (find_some truthy (candidates m) Ef) as [_ Hf].
    destruct first; simpl in *; try done; try (by rewrite Hf).
    by intros [= <-].
  - intros [= <-]. split_and!; try done. by intros [?|?].
Qed.

Lemma metadata_effect_frame v v' :
  metadata_effect v = Ok v' →
  metadata v' = metadata v ∧ error v' = error v.
Proof.
  rewrite <- metadata_effect_with_view. intros H.
  by destruct (metadata_effect_with_ok _ _ _ H) as (? & ? & _).
Qed.

Lemma metadata_effect_ok v v' :
  metadata_effect v = Ok v' →
  assetUrl v = "" ∨ derived_from (metadata v) (assetUrl v) →
  metadata v' = metadata v ∧ error v' = error v
  ∧ derived_from (metadata v') (assetUrl v').
Proof.
  rewrite <- metadata_effect_with_view. intros H Ha.
  destruct (metadata_effect_with_ok _ _ _ H) as (Hm & He & _ & Hd).
  rewrite Hm. auto.
Qed.

Lemma flush_frame c c' :
  flush c = Ok c' →
  props c' = props c ∧ instances c' = instances c
  ∧ metadata (view c') = metadata (view c) ∧ error (view c') = error (view c)
  ∧ metadata_changed c' = false
  ∧ (metadata_changed c = false → c' = c).
Proof.
  unfold flush. destruct (metadata_changed c) eqn:E; [|by intros [= <-]].
  destruct (metadata_effect (view c)) as [v|] eqn:Ev; [|done].
  intros [= <-]. destruct (metadata_effect_frame _ _ Ev) as [? ?]. by simpl.
Qed.

(** A render with changed props: the new instance and the reset are those of
    the fetch effect; [assetUrl] is empty unless the effect on [metadata]
    was due, and then it is what that effect derives from the [metadata] of
    the superseded request. *)
Lemma rerender_frame p ethereum c c' :
  rerender p ethereum c = Ok c' →
  props c' = p
  ∧ instances c' = instances (fetch_effect p ethereum c)
  ∧ metadata (view c') = VNull
  ∧ error (view c') = error (view (fetch_effect p ethereum c))
  ∧ metadata_changed c' = negb (same_value (metadata (view c)) VNull)
  ∧ (metadata_changed c = false → c' = fetch_effect p ethereum c)
  ∧ (awaits_effect c = false → assetUrl (view c') = "")
  ∧ (metadata_changed c = true → derived_from (metadata (view c)) (assetUrl (view c'))).
Proof.
  unfold rerender, awaits_effect.
  destruct (fetch_effect_view p ethereum c) as [Hm Hu].
  destruct (metadata_changed c) eqn:E; simpl.
  - destruct (metadata_effect_with _ _) as [v|] eqn:Ev; [|done]. simpl.
    intros [= <-]. simpl.
    destruct (metadata_effect_with_ok _ _ _ Ev) as (Hm' & He' & Hsame & Hd).
    split_and!; try done.
    + by rewrite Hm'.
    + intros Ht. by rewrite (Hsame Ht).
    + intros _. apply Hd. by left.
  - intros [= <-]. simpl. split_and!; try done.
    intros _. unfold fetch_effect. rewrite E.
    by destruct (match dispatch p with
                 | Some FetchFromMetadataUrl => _ | Some FetchFromContract => _
                 | None => _ end).
Qed.

(** The shapes of a successful step. *)
Lemma step_inv c e c' :
  step c e = Some (Ok c') →
  (∃ p ethereum, e = Render p ethereum
     ∧ ((props c = p ∧ flush c = Ok c') ∨ (props c ≠ p ∧ rerender p ethereum c = Ok c')))
  ∨ (∃ id uri inst, e = TokenURI id uri ∧ instances c !! id = Some inst
       ∧ (∃ prov a t, pending inst = AwaitTokenURI prov a t)
       ∧ c' = update_instance id (await (AwaitGet (ipfsToHttp uri))) c (view c) false)
  ∨ (∃ id data inst, e = Resolved id data ∧ instances c !! id = Some inst
       ∧ (∃ url, pending inst = AwaitGet url) ∧ cancelled inst = true
       ∧ c' = update_instance id settle c (view c) false)
  ∨ (∃ id data inst, e = Resolved id data ∧ instances c !! id = Some inst
       ∧ (∃ url, pending inst = AwaitGet url) ∧ cancelled inst = false
       ∧ c' = update_instance id settle c (setMetadata data (view c))
                (negb (same_value (metadata (view c)) data)))
  ∨ (∃ id err inst, e = Rejected id err ∧ instances c !! id = Some inst
       ∧ pending inst ≠ Settled
       ∧ c' = update_instance id settle c (setError (Some (message err)) (view c)) false)
  ∨ (e = Flush ∧ flush c = Ok c').
Proof.
  destruct e as [p ethereum|id uri|id data|id err|]; simpl.
  - destruct (decide (props c = p)) as [Hd|Hd]; intros [= Hs];
      left; exists p, ethereum; auto.
  - destruct (instances c !! id) as [[stale ph]|] eqn:Ei; [|done].
    destruct ph; try done. simpl. intros [= <-].
    right; left. eexists _, _, _. split_and!; eauto.
  - destruct (instances c !! id) as [[stale ph]|] eqn:Ei; [|done].
    destruct ph; try done. destruct stale; intros [= <-].
    + do 2 right; left. eexists _, _, _. split_and!; eauto.
    + do 3 right; left. eexists _, _, _. split_and!; eauto.
  - destruct (instances c !! id) as [[stale ph]|] eqn:Ei; [|done].
    destruct ph; simpl; try done; intros [= <-];
      do 4 right; left; eexists _, _, _; split_and!; eauto.
  - intros [= Hf]. do 5 right. done.
Qed.

(** ** The invariant of the component *)

(** The invariant looks at the instances and at [metadata] only. *)
Lemma invariant_same c c' :
  instances c' = instances c → metadata (view c') = metadata (view c) →
  invariant c → invariant c'.
Proof.
  intros Hi Hm Hc. split; unfold current; rewrite ?Hi, ?Hm.
  - apply (inv_current c Hc).
  - apply (inv_pending c Hc).
Qed.

Lemma invariant_fetch_effect p ethereum c :
  invariant c → invariant (fetch_effect p ethereum c).
Proof.
  intros Hc.
  destruct (fetch_effect_instances p ethereum c) as [ph Hi].
  destruct (fetch_effect_view p ethereum c) as [Hm Hu].
  assert (Hcur : current (fetch_effect p ethereum c) = length (instances c)).
  { unfold current. rewrite Hi, length_app, length_alter. simpl. lia. }
  split.
  - intros id inst. rewrite Hcur, Hi.
    intros [Hl|[Hge Hl]]%lookup_app_Some.
    + pose proof (lookup_lt_Some _ _ _ Hl) as Hlt. rewrite length_alter in Hlt.
      assert (cancelled inst = true) as ->; [|split; [done|lia]].
      destruct (decide (current c = id)) as [<-|Hne].
      * rewrite list_lookup_alter_eq in Hl.
        destruct (instances c !! current c); by simplify_eq/=.
      * rewrite list_lookup_alter_ne in Hl by done.
        apply not_false_iff_true. intros Hf.
        destruct (inv_current c Hc id inst Hl) as [H1 _].
        specialize (H1 Hf). congruence.
    + rewrite length_alter in Hge, Hl.
      apply list_lookup_singleton_Some in Hl as [Hz <-]. simpl.
      split; [lia|done].
  - by rewrite Hm.
Qed.

Lemma invariant_mount p ethereum : invariant (mount p ethereum).
Proof. apply invariant_fetch_effect. split; simpl; done. Qed.

Lemma invariant_flush c c' : invariant c → flush c = Ok c' → invariant c'.
Proof.
  intros Hc Hf. destruct (flush_frame _ _ Hf) as (_ & Hi & Hm & _).
  by apply (invariant_same c).
Qed.

Lemma invariant_rerender p ethereum c c' :
  invariant c → rerender p ethereum c = Ok c' → invariant c'.
Proof.
  intros Hc Hr. destruct (rerender_frame _ _ _ _ Hr) as (_ & Hi & Hm & _).
  apply (invariant_same (fetch_effect p ethereum c)); [done| |].
  - rewrite Hm. by destruct (fetch_effect_view p ethereum c) as [-> _].
  - by apply invariant_fetch_effect.
Qed.

Lemma invariant_update id f c v changed :
  invariant c →
  (∀ i, cancelled (f i) = cancelled i) →
  (∀ inst, instances c !! current c = Some inst →
           pending (if decide (id = current c) then f inst else inst) ≠ Settled →
           metadata v = VNull) →
  invariant (update_instance id f c v changed).
Proof.
  intros Hc Hf Hp.
  assert (Hcur : current (update_instance id f c v changed) = current c).
  { unfold current. simpl. by rewrite length_alter. }
  split; rewrite ?Hcur; simpl; try done.
  - intros j inst. rewrite list_lookup_alter.
    destruct (decide (id = j)) as [<-|Hj].
    + destruct (instances c !! id) as [i|] eqn:Ei; [|done].
      intros [= <-]. rewrite Hf. by apply (inv_current c Hc).
    + apply (inv_current c Hc).
  - intros inst. rewrite list_lookup_alter.
    destruct (decide (id = current c)) as [->|Hj].
    + destruct (instances c !! current c) as [i|] eqn:Ei; [|done].
      intros [= <-] Hs. by apply (Hp i).
    + intros Hl Hs. by apply (Hp inst).
Qed.

(** A step that leaves [metadata] alone and does not settle the current
    instance into a pending one keeps the invariant. *)
Lemma invariant_update_same id f c v changed :
  invariant c →
  (∀ i, cancelled (f i) = cancelled i) →
  (∀ inst, instances c !! id = Some inst →
           id = current c → pending (f inst) ≠ Settled → pending inst ≠ Settled) →
  metadata v = metadata (view c) →
  invariant (update_instance id f c v changed).
Proof.
  intros Hc Hf Hp Hm. apply invariant_update; try done.
  intros inst Hl. rewrite Hm.
  destruct (decide (id = current c)) as [->|Hne]; intros Hs;
    apply (inv_pending c Hc inst Hl); auto.
Qed.

Lemma invariant_step c e c' :
  invariant c → step c e = Some (Ok c') → invariant c'.
Proof.
  intros Hc Hs. destruct (step_inv _ _ _ Hs) as
    [(p & eth & -> & [[_ Hf]|[_ Hr]])
    |[(id & uri & inst & -> & Hl & (prov & a & t & Hp) & ->)
    |[(id & data & inst & -> & Hl & _ & _ & ->)
    |[(id & data & inst & -> & Hl & _ & Hcan & ->)
    |[(id & err & inst & -> & Hl & _ & ->)
    |[-> Hf]]]]]].
  - by apply (invariant_flush c).
  - by apply (invariant_rerender p eth c).
  - apply invariant_update_same; try done.
    intros i Hi _ _. rewrite Hl in Hi. injection Hi as <-. by rewrite Hp.
  - by apply invariant_update_same.
  - assert (id = current c) as ->.
    { destruct (inv_current c Hc _ _ Hl) as [H1 _]. by apply H1. }
    apply invariant_update; try done.
    intros i Hi. by rewrite decide_True by done.
  - by apply invariant_update_same.
  - by apply (invariant_flush c).
Qed.

Lemma reachable_invariant c : reachable c → invariant c.
Proof.
  induction 1 as [p ethereum|c e c' _ IH Hs].
  - apply invariant_mount.
  - by apply (invariant_step c e).
Qed.

(** *** The asset URL in orderly runs *)

Lemma orderly_reachable c : orderly c → reachable c.
Proof.
  induction 1 as [p ethereum|c e c' _ IH Hs _].
  - apply reachable_mount.
  - by apply (reachable_step c e).
Qed.

Lemma asset_invariant_flush c c' :
  asset_invariant c → flush c = Ok c' → asset_invariant c'.
Proof.
  intros Ha. unfold flush.
  destruct (metadata_changed c) eqn:E; [|by intros [= <-]].
  destruct (metadata_effect (view c)) as [v|] eqn:Ev; [|done].
  intros [= <-].
  destruct (metadata_effect_ok _ _ Ev (inv_asset c Ha)) as (_ & _ & Hd).
  split; simpl; auto.
Qed.

Lemma asset_invariant_reset c :
  metadata (view c) = VNull → assetUrl (view c) = "" → asset_invariant c.
Proof.
  intros Hm Hu. split; [by left|]. intros _. rewrite Hm, Hu. done.
Qed.

Lemma asset_invariant_same c c' :
  metadata (view c') = metadata (view c) → assetUrl (view c') = assetUrl (view c) →
  metadata_changed c' = metadata_changed c →
  asset_invariant c → asset_invariant c'.
Proof.
  intros Hm Hu Hch Ha. split; rewrite ?Hm, ?Hu, ?Hch.
  - apply (inv_asset c Ha).
  - apply (inv_flushed c Ha).
Qed.

Lemma asset_invariant_step c e c' :
  invariant c → asset_invariant c → step c e = Some (Ok c') →
  (∀ p ethereum, e = Render p ethereum → props c ≠ p → awaits_effect c = false) →
  asset_invariant c'.
Proof.
  intros Hc Ha Hs Hord. destruct (step_inv _ _ _ Hs) as
    [(p & eth & -> & [[_ Hf]|[Hne Hr]])
    |[(id & uri & inst & -> & Hl & _ & ->)
    |[(id & data & inst & -> & Hl & _ & _ & ->)
    |[(id & data & inst & -> & Hl & [url Hp] & Hcan & ->)
    |[(id & err & inst & -> & Hl & _ & ->)
    |[-> Hf]]]]]];
    try (apply (asset_invariant_same c); [done|done|simpl; by rewrite orb_false_r|done]).
  - by apply (asset_invariant_flush c).
  - destruct (rerender_frame _ _ _ _ Hr) as (_ & _ & Hm & _ & _ & _ & Hu & _).
    apply asset_invariant_reset; [done|]. apply Hu. by apply (Hord p eth).
  - assert (id = current c) as ->.
    { destruct (inv_current c Hc _ _ Hl) as [H1 _]. by apply H1. }
    assert (Hm : metadata (view c) = VNull).
    { apply (inv_pending c Hc _ Hl). by rewrite Hp. }
    assert (Hu : assetUrl (view c) = "").
    { destruct (inv_asset c Ha) as [?|Hd]; [done|].
      by apply derived_from_falsy in Hd; [|rewrite Hm]. }
    split; simpl; [by left|]. rewrite Hm, Hu.
    intros [_ Hs'%negb_false_iff]%orb_false_iff.
    by destruct data.
  - by apply (asset_invariant_flush c).
Qed.

Lemma run_orderly c tr c' :
  orderly c → run c tr = Some (Ok c') →
  Forall (λ e, ∀ p ethereum, e ≠ Render p ethereum) tr →
  orderly c'.
Proof.
  revert c. induction tr as [|e tr IH]; intros c Hc; simpl.
  - by intros [= <-].
  - destruct (step c e) as [[c1|]|] eqn:Es; try done.
    intros Hr [He Htr]%Forall_cons. apply (IH c1); try done.
    apply (orderly_step c e); try done.
    intros p ethereum ->. by destruct (He p ethereum).
Qed.

Lemma orderly_two_requests :
  ∃ c, run (mount request_1 false) two_requests = Some (Ok c)
       ∧ orderly c
       ∧ c = {| props := request_2;
                view := {| metadata := document_2; assetUrl := "https://h/bar.glb";
                           error := None |};
                instances := [{| cancelled := true; pending := Settled |};
                              {| cancelled := false; pending := Settled |}];
                metadata_changed := false |}.
Proof.
  eexists. split; [reflexivity|]. split; [|reflexivity].
  assert (H1 : orderly (fetch_effect request_2 false
                          {| props := request_1;
                             view := {| metadata := document_1;
                                        assetUrl := "https://ipfs.io/ipfs/Qm2/img.png";
                                        error := None |};
                             instances := [{| cancelled := false; pending := Settled |}];
                             metadata_changed := false |})).
  { eapply (orderly_step _ (Render request_2 false)).
    - apply (run_orderly (mount request_1 false) [Resolved 0 document_1; Flush]);
        [apply orderly_mount | reflexivity |].
      repeat constructor; discriminate.
    - reflexivity.
    - reflexivity. }
  apply (run_orderly _ [Resolved 1 document_2; Flush] _ H1); [reflexivity|].
  repeat constructor; discriminate.
Qed.

Lemma orderly_invariant c : orderly c → asset_invariant c.
Proof.
  induction 1 as [p ethereum|c e c' Ho IH Hs Hord].
  - destruct (fetch_effect_view p ethereum
      {| props := p; view := initial_view; instances := []; metadata_changed := false |})
      as [Hm Hu].
    by apply asset_invariant_reset.
  - apply (asset_invariant_step c e); try done.
    by apply reachable_invariant, orderly_reachable.
Qed.

Lemma run_reachable c tr c' : reachable c → run c tr = Some (Ok c') → reachable c'.
Proof.
  revert c. induction tr as [|e tr IH]; intros c Hc; simpl.
  - by intros [= <-].
  - destruct (step c e) as [[c1|]|] eqn:Es; try done.
    apply IH. by apply (reachable_step c e).
Qed.

(** ** Stale responses *)

(** The fulfilment of the GET of a superseded instance is discarded. *)
Lemma stale_resolution_discarded c id inst data c' :
  instances c !! id = Some inst → cancelled inst = true →
  step c (Resolved id data) = Some (Ok c') → view c' = view c.
Proof.
  intros Hl Hs. simpl. rewrite Hl. destruct inst as [stale ph]. simpl in Hs.
  subst stale. destruct ph; try done. by intros [= <-].
Qed.

(** The rejection of a promise is recorded whether or not the instance was
    superseded: the handler does not look at [cancelled]. *)
Lemma rejection_recorded c id inst err :
  instances c !! id = Some inst → pending inst ≠ Settled →
  step c (Rejected id err)
  = Some (Ok (update_instance id settle c (setError (Some (message err)) (view c)) false)).
Proof.
  intros Hl Hp. simpl. rewrite Hl. by destruct inst as [stale []].
Qed.

(** C1: a superseded request whose fetch fails late still writes.  Request 1
    is mounted, request 2 supersedes it and resolves; when the fetch of
    request 1 is then rejected, its message lands in [error] next to the
    metadata of request 2.  (A late fulfilment of request 1 is discarded.) *)
Theorem stale_rejection_overwrites_error :
  cancelled <$> instances (fetch_effect request_2 false (mount request_1 false)) !! 0
    = Some true
  ∧ view_of (run (mount request_1 false)
               [Render request_2 false; Resolved 1 document_2; Flush])
    = Some {| metadata := document_2; assetUrl := "https://h/bar.glb"; error := None |}
  ∧ view_of (run (mount request_1 false)
               [Render request_2 false; Resolved 1 document_2; Flush;
                Rejected 0 (Error "Network Error")])
    = Some {| metadata := document_2; assetUrl := "https://h/bar.glb";
              error := Some "Network Error" |}
  ∧ view_of (run (mount request_1 false)
               [Render request_2 false; Resolved 1 document_2; Flush;
                Resolved 0 document_1; Flush])
    = Some {| metadata := document_2; assetUrl := "https://h/bar.glb"; error := None |}.
Proof. split_and!; reflexivity. Qed.

(** ** Errors of the acquisition *)

(** C7: an acquisition error is recorded next to metadata.  The no-provider
    error is thrown, caught and recorded as claimed.  But when request 1 is
    superseded by request 2, whose document arrives, and the GET of
    request 1, still outstanding, then fails, the handler of request 1 runs
    all the same: the error is recorded and [metadata] is the document of
    request 2, not absent. *)
Theorem superseded_error_beside_metadata :
  fetchFromContract contract_request false = Throw (Error no_provider_message)
  ∧ view (mount contract_request false)
    = {| metadata := VNull; assetUrl := ""; error := Some no_provider_message |}
  ∧ ∃ c c',
      run (mount request_1 false) [Render request_2 false; Resolved 1 document_2; Flush]
      = Some (Ok c)
      ∧ pending <$> instances c !! 0
        = Some (AwaitGet "https://ipfs.io/ipfs/Qm1/metadata.json")
      ∧ step c (Rejected 0 (Error "Network Error")) = Some (Ok c')
      ∧ error (view c') = Some "Network Error"
      ∧ metadata (view c') = document_2
      ∧ metadata (view c') ≠ VNull.
Proof.
  split_and!; [reflexivity..|].
  eexists _, _. split_and!; [reflexivity..|discriminate].
Qed.

(** X21: the errors of the request in force.  A contract lookup without
    [providerUrl] and without [window.ethereum] throws the no-provider
    error, which is caught and recorded.  The rejection of any awaited
    promise is caught too: it never unmounts the component, its message is
    recorded in [error], and [metadata] is not touched, which for the
    request in force means that it stays [null]. *)
Theorem acquisition_errors_recorded
    (c : Component) (p : Props) (id : nat) (inst : instance) (err : exn) :
  reachable c →
  (metadataUrl p = "" → contractAddress p ≠ "" → tokenId p ≠ "" → providerUrl p = "" →
   fetchFromContract p false = Throw (Error no_provider_message)
   ∧ view (mount p false)
     = {| metadata := VNull; assetUrl := ""; error := Some no_provider_message |}
   ∧ view (fetch_effect p false c)
     = {| metadata := VNull; assetUrl := ""; error := Some no_provider_message |})
  ∧ (instances c !! id = Some inst → pending inst ≠ Settled →
     ∃ c', step c (Rejected id err) = Some (Ok c')
           ∧ error (view c') = Some (message err)
           ∧ metadata (view c') = metadata (view c)
           ∧ (id = current c → metadata (view c') = VNull)).
Proof.
  intros Hc%reachable_invariant. split.
  - destruct p as [mu ca ti pu]. simpl. intros -> Hca Hti ->.
    destruct ca, ti; done.
  - intros Hl Hp. eexists. split; [by apply (rejection_recorded c id inst)|].
    split_and!; [done..|]. intros ->. simpl.
    by apply (inv_pending c Hc inst).
Qed.

Lemma acquisition_errors_recorded_witness :
  view (mount contract_request false)
    = {| metadata := VNull; assetUrl := ""; error := Some no_provider_message |}
  ∧ ∃ c', step (mount request_1 false) (Rejected 0 (Error "Network Error")) = Some (Ok c')
          ∧ metadata (view c') = VNull
          ∧ error (view c') = Some "Network Error".
Proof.
  pose proof (acquisition_errors_recorded (mount request_1 false) contract_request 0
                {| cancelled := false;
                   pending := AwaitGet "https://ipfs.io/ipfs/Qm1/metadata.json" |}
                (Error "Network Error") (reachable_mount request_1 false)) as [H1 H2].
  split.
  - apply H1; [reflexivity | discriminate | discriminate | reflexivity].
  - destruct H2 as (c' & Hs & He & _ & Hm); [reflexivity | discriminate |].
    exists c'. split_and!; [exact Hs | exact (Hm eq_refl) | exact He].
Defined.

(** ** The asset URL and the metadata *)

Lemma same_value_null m : same_value m VNull = true → m = VNull.
Proof. by destruct m. Qed.

Lemma flush_metadata c c' : flush c = Ok c' → metadata (view c') = metadata (view c).
Proof.
  unfold flush. destruct (metadata_changed c); [|by intros [= <-]].
  unfold metadata_effect.
  destruct (truthy (metadata (view c))); simpl; [|by intros [= <-]].
  destruct (first_candidate (metadata (view c))) as [first|]; [|by intros [= <-]].
  destruct (ipfsToHttp_value first) as [[]|]; simpl; try done; by intros [= <-].
Qed.

(** The effect on [metadata] does not throw when the first truthy asset
    field, if there is one, is a string. *)
Lemma flush_total c :
  (∀ first, first_candidate (metadata (view c)) = Some first → ∃ s, first = VStr s) →
  ∃ c', flush c = Ok c'.
Proof.
  intros Hstr. unfold flush. destruct (metadata_changed c); [|by eexists].
  unfold metadata_effect.
  destruct (truthy (metadata (view c))); simpl; [|by eexists].
  destruct (first_candidate (metadata (view c))) as [first|]; [|by eexists].
  destruct (Hstr first eq_refl) as [s ->]. simpl. by eexists.
Qed.

(** Whenever a step changes [metadata], the effect on [metadata] is due. *)
Lemma metadata_change_scheduled c e c' :
  invariant c → step c e = Some (Ok c') →
  metadata (view c') ≠ metadata (view c) → metadata_changed c' = true.
Proof.
  intros Hc Hs. destruct (step_inv _ _ _ Hs) as
    [(p & eth & -> & [[_ Hf]|[_ Hr]])
    |[(id & uri & inst & -> & Hl & _ & ->)
    |[(id & data & inst & -> & Hl & _ & _ & ->)
    |[(id & data & inst & -> & Hl & [url Hp] & Hcan & ->)
    |[(id & err & inst & -> & Hl & _ & ->)
    |[-> Hf]]]]]]; simpl; try (intros Hne; by destruct Hne).
  - destruct (flush_frame _ _ Hf) as (_ & _ & -> & _). intros Hne. by destruct Hne.
  - destruct (rerender_frame _ _ _ _ Hr) as (_ & _ & -> & _ & -> & _).
    destruct (same_value (metadata (view c)) VNull) eqn:Es; [|done].
    apply same_value_null in Es. intros Hne. by destruct Hne.
  - assert (id = current c) as ->.
    { destruct (inv_current c Hc _ _ Hl) as [H1 _]. by apply H1. }
    rewrite (inv_pending c Hc _ Hl) by (by rewrite Hp).
    intros Hne. destruct data; try done; by rewrite orb_true_r.
  - destruct (flush_frame _ _ Hf) as (_ & _ & -> & _). intros Hne. by destruct Hne.
Qed.

(** C6: as long as no change of props is rendered while a fetched document
    awaits the effect on [metadata], [assetUrl] is either empty or derived
    from the current [metadata] (the normalised first truthy asset field),
    never from an earlier one; whenever [metadata] changes the effect that
    re-derives it is due, and once that effect has run [assetUrl] is the
    derived value, empty when [metadata] is absent or has no asset field. *)
Theorem asset_url_follows_metadata (c : Component) :
  orderly c →
  (assetUrl (view c) = "" ∨ derived_from (metadata (view c)) (assetUrl (view c)))
  ∧ (metadata_changed c = false →
     derived_from (metadata (view c)) (assetUrl (view c)))
  ∧ (∀ e c', step c e = Some (Ok c') →
             metadata (view c') ≠ metadata (view c) → metadata_changed c' = true)
  ∧ (∀ c', step c Flush = Some (Ok c') →
           metadata (view c') = metadata (view c)
           ∧ derived_from (metadata (view c')) (assetUrl (view c')))
  ∧ ((∀ first, first_candidate (metadata (view c)) = Some first → ∃ s, first = VStr s) →
     ∃ c', step c Flush = Some (Ok c')).
Proof.
  intros Ho. pose proof (orderly_invariant c Ho) as Ha.
  pose proof (reachable_invariant c (orderly_reachable c Ho)) as Hc. split_and!.
  - apply (inv_asset c Ha).
  - apply (inv_flushed c Ha).
  - intros e c'. by apply metadata_change_scheduled.
  - intros c' Hs. simpl in Hs. injection Hs as Hs.
    destruct (flush_frame _ _ Hs) as (_ & _ & Hm & _ & Hch & _). split; [done|].
    by apply (inv_flushed c' (asset_invariant_flush c c' Ha Hs)).
  - intros Hstr. destruct (flush_total c Hstr) as [c' Hf].
    exists c'. simpl. by rewrite Hf.
Qed.

Lemma asset_url_follows_metadata_witness :
  derived_from (metadata (view (mount request_1 false)))
    (assetUrl (view (mount request_1 false)))
  ∧ metadata_changed
      (update_instance 0 settle (mount request_1 false)
         (setMetadata document_1 (view (mount request_1 false))) true) = true
  ∧ derived_from document_2 "https://h/bar.glb".
Proof.
  pose proof (asset_url_follows_metadata (mount request_1 false)
                (orderly_mount request_1 false)) as (_ & Hd & Hs & _ & _).
  split_and!.
  - apply Hd. reflexivity.
  - apply (Hs (Resolved 0 document_1)); [reflexivity | discriminate].
  - destruct orderly_two_requests as (c & _ & Ho & ->).
    apply (asset_url_follows_metadata _ Ho). reflexivity.
Defined.

(** C6, as stated, fails between the fulfilment of the GET and the run of
    the effect on [metadata]: the component is rendered with the new
    metadata and an [assetUrl] that is still empty. *)
Lemma asset_url_behind_metadata :
  ∃ c, run (mount request_1 false) [Resolved 0 document_1] = Some (Ok c)
       ∧ reachable c ∧ orderly c
       ∧ view c = {| metadata := document_1; assetUrl := ""; error := None |}
       ∧ (∀ u, derived_from (metadata (view c)) u ↔ u = "https://ipfs.io/ipfs/Qm2/img.png")
       ∧ ¬ derived_from (metadata (view c)) (assetUrl (view c)).
Proof.
  eexists. split; [reflexivity|]. split_and!.
  - apply (run_reachable (mount request_1 false) [Resolved 0 document_1]);
      [apply reachable_mount | reflexivity].
  - apply (orderly_step (mount request_1 false) (Resolved 0 document_1));
      [apply orderly_mount | reflexivity | discriminate].
  - reflexivity.
  - done.
  - discriminate.
Qed.

(** What C6 leaves out.  When the props change in the render that also
    brings the document of request 1, the fetch effect resets the cells and
    the effect on [metadata] then runs with that document in its closure:
    the asset of request 1 stands next to [metadata = null], and it stays
    when the document of request 2 names no asset. *)
Remark asset_url_of_superseded_request :
  view_of (run (mount request_1 false) [Resolved 0 document_1; Render request_2 false])
  = Some {| metadata := VNull; assetUrl := "https://ipfs.io/ipfs/Qm2/img.png";
            error := None |}
  ∧ view_of (run (mount request_1 false)
               [Resolved 0 document_1; Render request_2 false; Flush;
                Resolved 1 document_3; Flush])
    = Some {| metadata := document_3; assetUrl := "https://ipfs.io/ipfs/Qm2/img.png";
              error := None |}
  ∧ first_candidate document_3 = None
  ∧ view_of (run (mount request_1 false)
               [Resolved 0 document_1; Flush; Render request_2 false])
    = Some initial_view.
Proof. split_and!; reflexivity. Qed.

(** The scenario of the demo: the metadata URL is an IPFS URI, the body
    names an IPFS image; the GET goes to the gateway, the asset URL is the
    gateway URL of the image, and the image path renders it. *)
Example scenario_foo :
  pending <$> instances (mount request_1 false) !! 0
    = Some (AwaitGet "https://ipfs.io/ipfs/Qm1/metadata.json")
  ∧ view_of (run (mount request_1 false) [Resolved 0 document_1; Flush])
    = Some {| metadata := document_1; assetUrl := "https://ipfs.io/ipfs/Qm2/img.png";
              error := None |}
  ∧ get document_1 "name" = VStr "Foo"
  ∧ render_asset "https://ipfs.io/ipfs/Qm2/img.png" = [ImagePlane].
Proof. split_and!; reflexivity. Qed.

(** The demo page: the gateway URL of [App.jsx] is fetched as it is. *)
Example scenario_app :
  instances (mount app_request false)
  = [{| cancelled := false; pending := AwaitGet (metadataUrl app_request) |}].
Proof. reflexivity. Qed.

(** A contract lookup through the injected wallet: the token URI is
    normalised before the GET, and the document that comes back is shown. *)
Example scenario_contract :
  pending <$> instances (mount contract_request true) !! 0
    = Some (AwaitTokenURI Web3Provider "0xabc" "1")
  ∧ step (mount contract_request true) (TokenURI 0 "ipfs://QmT/1.json")
    = Some (Ok {| props := contract_request;
                  view := initial_view;
                  instances :=
                    [{| cancelled := false;
                        pending := AwaitGet "https://ipfs.io/ipfs/QmT/1.json" |}];
                  metadata_changed := false |})
  ∧ view_of (run (mount contract_request true)
               [TokenURI 0 "ipfs://QmT/1.json"; Resolved 0 document_2; Flush])
    = Some {| metadata := document_2; assetUrl := "https://h/bar.glb"; error := None |}.
Proof. split_and!; reflexivity. Qed.

(** * Part III: further properties of the code *)

(** ** Normalisation and classification *)

Lemma ipfsToHttp_not_ipfs u : JsString.startsWith (ipfsToHttp u) "ipfs://" = false.
Proof. apply startsWith_false. intros r. apply ipfsToHttp_fixed. Qed.

Lemma ipfsToHttp_empty u : ipfsToHttp u = "" ↔ u = "".
Proof.
  destruct (String.prefix "ipfs://" u) eqn:E.
  - destruct (prefix_inv _ _ E) as [rest ->]. rewrite ipfsToHttp_ipfs.
    split; discriminate.
  - rewrite ipfsToHttp_other; [done|].
    intros ? ->. by rewrite prefix_app in E.
Qed.

(** X1: a normalised URL never starts with "ipfs://", and it is empty only
    when the raw one is. *)
Theorem ipfsToHttp_resolved (u : string) :
  JsString.startsWith (ipfsToHttp u) "ipfs://" = false
  ∧ (ipfsToHttp u = "" ↔ u = "").
Proof. split; [apply ipfsToHttp_not_ipfs | apply ipfsToHttp_empty]. Qed.

Section Commute.
Import RegExp Patterns.

Lemma test_behind_scheme re rest :
  re ∈ [model_re; image_re; embed_re] →
  test re ("ipfs://" +:+ rest) = test re rest
  ∧ test re ("https://ipfs.io/ipfs/" +:+ rest) = test re rest.
Proof.
  intros Hre. repeat (apply elem_of_cons in Hre as [->|Hre]); [..|by apply elem_of_nil in Hre];
    split; reflexivity.
Qed.

End Commute.

(** X2: normalisation does not change the classification: the gateway
    prefix and the "ipfs://" scheme match none of the patterns, nor do they
    complete a match with what follows, so a raw URL and its normalised form
    select the same render paths. *)
Theorem render_asset_normalised (u : string) :
  render_asset (ipfsToHttp u) = render_asset u.
Proof.
  destruct (String.prefix "ipfs://" u) eqn:E.
  - destruct (prefix_inv _ _ E) as [rest ->]. rewrite ipfsToHttp_ipfs.
    unfold render_asset, shows_model, shows_image, shows_embed.
    destruct (test_behind_scheme Patterns.model_re rest) as [-> ->]; [set_solver|].
    destruct (test_behind_scheme Patterns.image_re rest) as [-> ->]; [set_solver|].
    destruct (test_behind_scheme Patterns.embed_re rest) as [-> ->]; [set_solver|].
    done.
  - rewrite ipfsToHttp_other; [done|].
    intros ? ->. by rewrite prefix_app in E.
Qed.

(** ** Case *)

Section Case.
Import RegExp.

Lemma canonicalize_cases c :
  canonicalize c = c
  ∨ ((65 ≤ nat_of_ascii (canonicalize c) ≤ 90)%nat ∧ (97 ≤ nat_of_ascii c ≤ 122)%nat).
Proof.
  destruct c as [[] [] [] [] [] [] [] []]; vm_compute;
    first [by left | right; split; split; repeat constructor].
Qed.

Lemma canonicalize_idempotent c : canonicalize (canonicalize c) = canonicalize c.
Proof. destruct c as [[] [] [] [] [] [] [] []]; reflexivity. Qed.

(** A character that is not a letter is the upper case of itself only. *)
Lemma canonicalize_fixes x c :
  (nat_of_ascii x < 65 ∨ 122 < nat_of_ascii x)%nat →
  canonicalize c = x ↔ c = x.
Proof.
  intros Hx. destruct (canonicalize_cases c) as [->|[Hu Hl]]; [done|].
  split; intros <-; lia.
Qed.

Lemma prefix_upper p s :
  (∀ x c, In x (list_ascii_of_string p) → canonicalize c = x ↔ c = x) →
  String.prefix p (upper s) = String.prefix p s.
Proof.
  revert s. induction p as [|x p IH]; intros s Hp.
  - by destruct s.
  - destruct s as [|c s]; [done|]. simpl.
    rewrite IH by (intros; apply Hp; by right).
    pose proof (Hp x c (or_introl eq_refl)) as Hx.
    destruct (ascii_dec x (canonicalize c)) as [E|E], (ascii_dec x c) as [E'|E'];
      try done.
    + destruct E'. symmetry. by apply Hx.
    + destruct E. symmetry. by apply Hx.
Qed.

Lemma line_terminator_upper s : line_terminator_at (upper s) = line_terminator_at s.
Proof.
  unfold line_terminator_at, JsString.startsWith.
  rewrite !prefix_upper; [done|..];
    intros x c Hin; apply canonicalize_fixes;
    simpl in Hin; repeat (destruct Hin as [<-|Hin]; [vm_compute; lia|]); done.
Qed.

Lemma upper_app a b : upper (a +:+ b) = upper a +:+ upper b.
Proof. induction a; simpl; congruence. Qed.

Lemma match_here_upper p s : match_here p (upper s) = match_here p s.
Proof.
  revert s. induction p as [|[c| |] p IH]; intros s.
  - done.
  - destruct s as [|d s]; [done|]. simpl.
    unfold chr_matches. by rewrite canonicalize_idempotent, IH.
  - induction s as [|d s IHs].
    + reflexivity.
    + change (match_here (AnyStar :: p) (upper (String d s)))
        with (match_here p (upper (String d s))
              || negb (line_terminator_at (upper (String d s)))
                 && match_here (AnyStar :: p) (upper s)).
      change (match_here (AnyStar :: p) (String d s))
        with (match_here p (String d s)
              || negb (line_terminator_at (String d s))
                 && match_here (AnyStar :: p) s).
      by rewrite IH, line_terminator_upper, IHs.
  - destruct s as [|d s]; [|done]. apply (IH "").
Qed.

Lemma test_upper re s : test re (upper s) = test re s.
Proof.
  induction s as [|c s IH]; [done|].
  change (test re (upper (String c s)))
    with (existsb (λ p, match_here p (upper (String c s))) re || test re (upper s)).
  change (test re (String c s))
    with (existsb (λ p, match_here p (String c s)) re || test re s).
  rewrite IH. f_equal. clear IH. induction re as [|p re IHre]; [done|].
  cbn [existsb]. by rewrite IHre, match_here_upper.
Qed.

Lemma render_asset_upper s : render_asset (upper s) = render_asset s.
Proof.
  unfold render_asset, shows_model, shows_image, shows_embed.
  rewrite !test_upper. by destruct s.
Qed.

Lemma ci_eqb_upper s s' : ci_eqb s s' = true → upper s = upper s'.
Proof.
  revert s'. induction s as [|c s IH]; intros [|c' s']; simpl; try done.
  intros [Hc Hs]%andb_true_iff. unfold chr_matches in Hc.
  apply Ascii.eqb_eq in Hc. rewrite Hc.
  f_equal. by apply IH.
Qed.

End Case.

(** X3: classification does not look at the case of ASCII letters: two URLs
    that are equal up to that case select the same render paths. *)
Theorem render_asset_case_insensitive (s s' : string) :
  ci_eqb s s' = true → render_asset s = render_asset s'.
Proof.
  intros H%ci_eqb_upper.
  by rewrite <- (render_asset_upper s), <- (render_asset_upper s'), H.
Qed.

Lemma render_asset_case_insensitive_witness :
  render_asset "HTTPS://H/Robot.GLB?v=1" = render_asset "https://h/robot.glb?V=1".
Proof. apply render_asset_case_insensitive. reflexivity. Defined.

(** ** Instances of the fetch effect *)

Lemma update_instance_lookup id f c v changed j :
  instances (update_instance id f c v changed) !! j
  = if decide (id = j) then f <$> instances c !! j else instances c !! j.
Proof. simpl. rewrite list_lookup_alter. by case_decide; subst. Qed.

Lemma fetch_effect_lookup p ethereum c j inst' :
  instances (fetch_effect p ethereum c) !! j = Some inst' →
  (∃ inst, instances c !! j = Some inst ∧ pending inst' = pending inst
           ∧ cancelled inst' = (cancelled inst || bool_decide (j = current c)))
  ∨ (j = length (instances c) ∧ cancelled inst' = false
     ∧ ((pending inst' = Settled)
        ∨ (dispatch p = Some FetchFromMetadataUrl
           ∧ pending inst' = AwaitGet (ipfsToHttp (metadataUrl p)))
        ∨ (dispatch p = Some FetchFromContract
           ∧ ∃ prov, pending inst' = AwaitTokenURI prov (contractAddress p) (tokenId p)))).
Proof.
  unfold fetch_effect.
  destruct (match dispatch p with
            | Some FetchFromMetadataUrl => _ | Some FetchFromContract => _
            | None => _ end) as [ph v] eqn:Ed. simpl.
  intros [Hl|[Hge Hl]]%lookup_app_Some.
  - left. rewrite list_lookup_alter in Hl. fold (current c) in Hl.
    destruct (decide (current c = j)) as [<-|Hne].
    + destruct (instances c !! current c) as [inst|]; [|done].
      injection Hl as <-. exists inst. simpl.
      by rewrite bool_decide_eq_true_2, orb_true_r.
    + exists inst'. rewrite bool_decide_eq_false_2, orb_false_r by done. done.
  - right. rewrite length_alter in Hge, Hl.
    apply list_lookup_singleton_Some in Hl as [Hz <-]. simpl.
    split; [lia|]. split; [done|].
    destruct (dispatch p) as [[]|] eqn:Edp.
    + unfold fetchFromMetadataUrl in Ed.
      destruct (JsString.truthy (metadataUrl p)); simpl in Ed;
        injection Ed as <- _; auto.
    + unfold fetchFromContract in Ed.
      destruct (negb _ || negb _); simpl in Ed; [injection Ed as <- _; auto|].
      destruct (JsString.truthy (providerUrl p)); [|destruct ethereum]; simpl in Ed;
        injection Ed as <- _; eauto 10.
    + injection Ed as <- _; auto.
Qed.

Lemma fetch_effect_lookup_old p ethereum c j inst :
  instances c !! j = Some inst →
  ∃ inst', instances (fetch_effect p ethereum c) !! j = Some inst'
           ∧ pending inst' = pending inst
           ∧ cancelled inst' = (cancelled inst || bool_decide (j = current c)).
Proof.
  intros Hl. destruct (fetch_effect_instances p ethereum c) as [ph ->].
  rewrite lookup_app_l by (rewrite length_alter; by eapply lookup_lt_Some).
  rewrite list_lookup_alter. destruct (decide (current c = j)) as [<-|Hne].
  - rewrite Hl. eexists. split; [done|]. simpl.
    by rewrite bool_decide_eq_true_2, orb_true_r.
  - exists inst. by rewrite bool_decide_eq_false_2, orb_false_r.
Qed.

Lemma fetch_effect_error p ethereum c :
  error (view (fetch_effect p ethereum c)) = None
  ∨ error (view (fetch_effect p ethereum c)) = Some no_provider_message.
Proof.
  unfold fetch_effect. destruct (dispatch p) as [[]|]; simpl; [| |by left].
  - unfold fetchFromMetadataUrl. destruct (negb _); simpl; by left.
  - unfold fetchFromContract. destruct (negb _ || negb _); simpl; [by left|].
    destruct (JsString.truthy (providerUrl p)); [|destruct ethereum]; simpl; auto.
Qed.

Lemma fetch_effect_length p ethereum c :
  length (instances (fetch_effect p ethereum c)) = S (length (instances c)).
Proof.
  destruct (fetch_effect_instances p ethereum c) as [ph ->].
  rewrite length_app, length_alter. simpl. lia.
Qed.

Lemma step_length c e c' :
  step c e = Some (Ok c') →
  length (instances c') = length (instances c)
  ∨ (length (instances c') = S (length (instances c))
     ∧ ∃ p ethereum, e = Render p ethereum ∧ props c ≠ p).
Proof.
  intros Hs. destruct (step_inv _ _ _ Hs) as
    [(p & eth & -> & [[_ Hf]|[Hne Hr]])
    |[(id & uri & inst & -> & _ & _ & ->)
    |[(id & data & inst & -> & _ & _ & _ & ->)
    |[(id & data & inst & -> & _ & _ & _ & ->)
    |[(id & err & inst & -> & _ & _ & ->)
    |[-> Hf]]]]]];
    try (left; simpl; by rewrite length_alter).
  - left. by destruct (flush_frame _ _ Hf) as (_ & -> & _).
  - right. destruct (rerender_frame _ _ _ _ Hr) as (_ & -> & _).
    rewrite fetch_effect_length. eauto.
  - left. by destruct (flush_frame _ _ Hf) as (_ & -> & _).
Qed.

Lemma reachable_nonempty c : reachable c → 0 < length (instances c).
Proof.
  induction 1 as [p ethereum|c e c' _ IH Hs].
  - unfold mount. rewrite fetch_effect_length. lia.
  - destruct (step_length _ _ _ Hs) as [->|[-> _]]; lia.
Qed.

(** ** Requests *)

(** X4: at most one request is live.  In every reachable state there is an
    instance of the fetch effect, the last one is the only one whose
    [cancelled] flag is down, and a flag that is up stays up. *)
Theorem one_current_instance (c : Component) :
  reachable c →
  0 < length (instances c)
  ∧ (∀ id inst, instances c !! id = Some inst →
                cancelled inst = false ↔ S id = length (instances c))
  ∧ (∀ e c' id inst, step c e = Some (Ok c') →
       instances c !! id = Some inst → cancelled inst = true →
       ∃ inst', instances c' !! id = Some inst' ∧ cancelled inst' = true).
Proof.
  intros Hr. pose proof (reachable_nonempty c Hr) as Hn.
  pose proof (reachable_invariant c Hr) as Hc. split_and!; [done|..].
  - intros id inst Hl. rewrite (inv_current c Hc id inst Hl).
    apply lookup_lt_Some in Hl. unfold current. lia.
  - intros e c' id inst Hs Hl Hcan.
    destruct (step_inv _ _ _ Hs) as
      [(p & eth & -> & [[_ Hf]|[_ Hre]])
      |[(j & uri & i0 & -> & _ & _ & ->)
      |[(j & data & i0 & -> & _ & _ & _ & ->)
      |[(j & data & i0 & -> & _ & _ & _ & ->)
      |[(j & err & i0 & -> & _ & _ & ->)
      |[-> Hf]]]]]];
      try (rewrite update_instance_lookup, Hl; case_decide; simpl; eauto).
    + destruct (flush_frame _ _ Hf) as (_ & -> & _). eauto.
    + destruct (rerender_frame _ _ _ _ Hre) as (_ & -> & _).
      destruct (fetch_effect_lookup_old p eth c id inst Hl) as (inst' & ? & _ & Hc').
      exists inst'. by rewrite Hc', Hcan.
    + destruct (flush_frame _ _ Hf) as (_ & -> & _). eauto.
Qed.

Lemma one_current_instance_witness :
  cancelled <$> instances (fetch_effect request_2 false (mount request_1 false)) !! 1
  = Some false.
Proof.
  assert (Hr : reachable (fetch_effect request_2 false (mount request_1 false))).
  { apply (reachable_step (mount request_1 false) (Render request_2 false));
      [apply reachable_mount | reflexivity]. }
  destruct (one_current_instance _ Hr) as (_ & H & _).
  destruct (instances (fetch_effect request_2 false (mount request_1 false)) !! 1)
    as [inst|] eqn:E; [|discriminate E].
  simpl. f_equal. apply (H 1 inst E). reflexivity.
Defined.

(** X5: the fulfilment of the GET of any request but the current one writes
    nothing: the state cells and the pending effect are as before. *)
Theorem stale_fulfilment_ignored (c : Component) (id : nat) (data : value) (c' : Component) :
  reachable c → id ≠ current c →
  step c (Resolved id data) = Some (Ok c') →
  view c' = view c ∧ metadata_changed c' = metadata_changed c.
Proof.
  intros Hc%reachable_invariant Hid Hs.
  destruct (step_inv _ _ _ Hs) as
    [(? & ? & [=] & _)|[(? & ? & ? & [=] & _)
    |[(j & d & inst & [= <- <-] & Hl & _ & Hcan & ->)
    |[(j & d & inst & [= <- <-] & Hl & _ & Hcan & ->)
    |[(? & ? & ? & [=] & _)|[[=] _]]]]]].
  - simpl. by rewrite orb_false_r.
  - destruct (inv_current c Hc id inst Hl) as [H1 _]. by destruct Hid; apply H1.
Qed.

Lemma stale_fulfilment_ignored_witness :
  view_of (step (fetch_effect request_2 false (mount request_1 false))
             (Resolved 0 document_1))
  = Some initial_view.
Proof.
  assert (Hr : reachable (fetch_effect request_2 false (mount request_1 false))).
  { apply (reachable_step (mount request_1 false) (Render request_2 false));
      [apply reachable_mount | reflexivity]. }
  destruct (step (fetch_effect request_2 false (mount request_1 false))
              (Resolved 0 document_1)) as [[c'|]|] eqn:Es; try discriminate Es.
  simpl. f_equal.
  apply (stale_fulfilment_ignored _ 0 document_1 c' Hr); [discriminate | exact Es].
Defined.

(** A cell that a step leaves alone has not changed. *)
Local Ltac unchanged := let H := fresh in intros H; by destruct H.

(** X6: what can write which state cell.  [error] changes only by a
    rejection or a change of props, [metadata] only by the fulfilment of the
    current request, and then only from [null] (so once per request), or by
    a change of props, and [assetUrl] only by the effect on [metadata] or a
    render.  In particular a later success does not clear an error. *)
Theorem cells_change_only_by (c : Component) (e : event) (c' : Component) :
  reachable c → step c e = Some (Ok c') →
  (error (view c') ≠ error (view c) →
   (∃ id err, e = Rejected id err)
   ∨ (∃ p ethereum, e = Render p ethereum ∧ props c ≠ p))
  ∧ (metadata (view c') ≠ metadata (view c) →
     (∃ data, e = Resolved (current c) data ∧ metadata (view c) = VNull)
     ∨ (∃ p ethereum, e = Render p ethereum ∧ props c ≠ p))
  ∧ (assetUrl (view c') ≠ assetUrl (view c) →
     e = Flush ∨ ∃ p ethereum, e = Render p ethereum).
Proof.
  intros Hc%reachable_invariant Hs.
  destruct (step_inv _ _ _ Hs) as
    [(p & eth & -> & [[_ Hf]|[Hne Hre]])
    |[(j & uri & i0 & -> & _ & _ & ->)
    |[(j & data & i0 & -> & _ & _ & _ & ->)
    |[(j & data & i0 & -> & Hl & [url Hp] & Hcan & ->)
    |[(j & err & i0 & -> & _ & _ & ->)
    |[-> Hf]]]]]]; simpl; try (split_and!; first [unchanged | eauto]; fail).
  - destruct (flush_frame _ _ Hf) as (_ & _ & -> & -> & _).
    split_and!; [unchanged|unchanged|eauto].
  - assert (j = current c) as ->.
    { destruct (inv_current c Hc _ _ Hl) as [H1 _]. by apply H1. }
    split_and!; [unchanged| |unchanged]. intros _. left. exists data. split; [done|].
    apply (inv_pending c Hc _ Hl). by rewrite Hp.
  - destruct (flush_frame _ _ Hf) as (_ & _ & -> & -> & _).
    split_and!; [unchanged|unchanged|eauto].
Qed.

Lemma cells_change_only_by_witness :
  ∃ data, Resolved 0 document_1 = Resolved (current (mount request_1 false)) data
          ∧ metadata (view (mount request_1 false)) = VNull.
Proof.
  destruct (cells_change_only_by (mount request_1 false) (Resolved 0 document_1)
              (update_instance 0 settle (mount request_1 false)
                 (setMetadata document_1 (view (mount request_1 false))) true)
              (reachable_mount request_1 false) eq_refl) as (_ & H & _).
  destruct H as [H|(p & eth & [=] & _)]; [discriminate | exact H].
Defined.

(** X7: a render re-runs the fetch effect exactly when one of the four props
    has changed.  With the props unchanged no instance is added and
    [metadata] and [error] are kept.  With changed props one instance is
    added, [metadata] is reset, [error] is reset or holds the no-provider
    message, and the earlier instances keep their promises: the superseded
    fetch is flagged, not aborted.  [assetUrl] is reset unless the effect on
    [metadata] was due: that effect runs after the reset, and [assetUrl] is
    then what it derives from the [metadata] of the superseded request. *)
Theorem render_refetches_on_change
    (c : Component) (p : Props) (ethereum : bool) (c' : Component) :
  step c (Render p ethereum) = Some (Ok c') →
  (props c = p →
   props c' = p ∧ instances c' = instances c
   ∧ metadata (view c') = metadata (view c) ∧ error (view c') = error (view c))
  ∧ (props c ≠ p →
     props c' = p
     ∧ length (instances c') = S (length (instances c))
     ∧ metadata (view c') = VNull
     ∧ (metadata_changed c = false → assetUrl (view c') = "")
     ∧ (metadata_changed c = true →
        derived_from (metadata (view c)) (assetUrl (view c')))
     ∧ (error (view c') = None ∨ error (view c') = Some no_provider_message)
     ∧ ∀ id inst, instances c !! id = Some inst →
         ∃ inst', instances c' !! id = Some inst'
                  ∧ pending inst' = pending inst
                  ∧ cancelled inst' = (cancelled inst || bool_decide (id = current c))).
Proof.
  intros Hs.
  destruct (step_inv _ _ _ Hs) as
    [(p' & eth & [= <- <-] & Hcase)
    |[(? & ? & ? & [=] & _)|[(? & ? & ? & [=] & _)|[(? & ? & ? & [=] & _)
    |[(? & ? & ? & [=] & _)|[[=] _]]]]]].
  destruct Hcase as [[Heq Hf]|[Hne Hre]]; split; try done.
  - intros _. by destruct (flush_frame _ _ Hf) as (-> & -> & -> & -> & _).
  - intros _.
    destruct (rerender_frame _ _ _ _ Hre) as (Hp & Hi & Hm & He & _ & _ & Hu & Hd).
    split_and!; try done.
    + by rewrite Hi, fetch_effect_length.
    + intros Hch. apply Hu. unfold awaits_effect. by rewrite Hch.
    + rewrite He. apply fetch_effect_error.
    + intros id inst Hl. rewrite Hi. by apply fetch_effect_lookup_old.
Qed.

Lemma render_refetches_on_change_witness :
  length (instances (fetch_effect request_2 false (mount request_1 false))) = 2
  ∧ instances (mount request_1 false) = instances (mount request_1 false)
  ∧ ∃ c c',
      step (mount request_1 false) (Resolved 0 document_1) = Some (Ok c)
      ∧ step c (Render request_2 false) = Some (Ok c')
      ∧ metadata (view c') = VNull
      ∧ assetUrl (view c') = "https://ipfs.io/ipfs/Qm2/img.png".
Proof.
  split_and!.
  - apply (render_refetches_on_change (mount request_1 false) request_2 false
             (fetch_effect request_2 false (mount request_1 false)) eq_refl).
    discriminate.
  - apply (render_refetches_on_change (mount request_1 false) request_1 false
             (mount request_1 false) eq_refl).
    reflexivity.
  - eexists _, _. split; [reflexivity|]. split; [reflexivity|].
    match goal with
    | |- metadata (view ?c') = _ ∧ _ =>
        destruct (render_refetches_on_change
                    (update_instance 0 settle (mount request_1 false)
                       (setMetadata document_1 (view (mount request_1 false))) true)
                    request_2 false c' eq_refl) as [_ H]
    end.
    destruct H as (_ & _ & Hm & _ & Hd & _); [discriminate|].
    split; [exact Hm | exact (Hd eq_refl)].
Defined.

(** X8: every GET goes to a normalised URL: in no reachable state does an
    instance await the GET of a URL that starts with "ipfs://", whether the
    URL came from the props or from the contract. *)
Theorem gets_are_normalised (c : Component) : reachable c → normalised_gets c.
Proof.
  induction 1 as [p ethereum|c e c' _ IH Hs]; unfold normalised_gets in *.
  - intros id inst url Hl Hp.
    destruct (fetch_effect_lookup _ _ _ _ _ Hl) as
      [(i0 & Hl0 & _)|(_ & _ & [Hs|[[_ Hs]|[_ [prov Hs]]]])];
      [done|congruence| |congruence].
    rewrite Hp in Hs. injection Hs as ->. apply ipfsToHttp_not_ipfs.
  - intros id inst url Hl Hp.
    destruct (step_inv _ _ _ Hs) as
      [(p & eth & -> & [[_ Hf]|[_ Hre]])
      |[(j & uri & i0 & -> & Hl0 & _ & ->)
      |[(j & data & i0 & -> & Hl0 & _ & _ & ->)
      |[(j & data & i0 & -> & Hl0 & _ & _ & ->)
      |[(j & err & i0 & -> & Hl0 & _ & ->)
      |[-> Hf]]]]]];
      try (rewrite update_instance_lookup in Hl; case_decide; simplify_eq/=;
           [rewrite Hl0 in Hl; by simplify_eq/= | by apply (IH id inst)]).
    + destruct (flush_frame _ _ Hf) as (_ & Hi & _). rewrite Hi in Hl. by apply (IH id inst).
    + destruct (rerender_frame _ _ _ _ Hre) as (_ & Hi & _). rewrite Hi in Hl.
      destruct (fetch_effect_lookup _ _ _ _ _ Hl) as
        [(i0 & Hl0 & Hp0 & _)|(_ & _ & [Hs'|[[_ Hs']|[_ [prov Hs']]]])];
        [|congruence| |congruence].
      * rewrite Hp in Hp0. by apply (IH id i0).
      * rewrite Hp in Hs'. injection Hs' as ->. apply ipfsToHttp_not_ipfs.
    + rewrite update_instance_lookup in Hl. case_decide; [|by apply (IH id inst)].
      subst j. rewrite Hl0 in Hl. simplify_eq/=. apply ipfsToHttp_not_ipfs.
    + destruct (flush_frame _ _ Hf) as (_ & Hi & _). rewrite Hi in Hl. by apply (IH id inst).
Qed.

Lemma gets_are_normalised_witness :
  JsString.startsWith "https://ipfs.io/ipfs/Qm1/metadata.json" "ipfs://" = false.
Proof.
  apply (gets_are_normalised (mount request_1 false) (reachable_mount request_1 false)
           0 {| cancelled := false;
                pending := AwaitGet "https://ipfs.io/ipfs/Qm1/metadata.json" |});
    reflexivity.
Defined.

Lemma fetch_effect_pending_no_error p ethereum c inst :
  instances (fetch_effect p ethereum c) !! length (instances c) = Some inst →
  pending inst ≠ Settled →
  error (view (fetch_effect p ethereum c)) = None.
Proof.
  unfold fetch_effect.
  destruct (match dispatch p with
            | Some FetchFromMetadataUrl => _ | Some FetchFromContract => _
            | None => _ end) as [ph v] eqn:Ed. simpl.
  rewrite lookup_app_r by (by rewrite length_alter).
  rewrite length_alter, Nat.sub_diag. intros [= <-]. simpl. intros Hph.
  destruct (dispatch p) as [[]|].
  - unfold fetchFromMetadataUrl in Ed. destruct (negb _); simpl in Ed; by simplify_eq.
  - unfold fetchFromContract in Ed.
    destruct (negb _ || negb _); simpl in Ed; [by simplify_eq|].
    destruct (JsString.truthy (providerUrl p)); [|destruct ethereum]; simpl in Ed;
      by simplify_eq.
  - by simplify_eq.
Qed.

Lemma reachable_first_request c : reachable c → first_request_outcome c.
Proof.
  induction 1 as [p ethereum|c e c' Hr IH Hs]; unfold first_request_outcome in *.
  - intros _. destruct (fetch_effect_view p ethereum
      {| props := p; view := initial_view; instances := []; metadata_changed := false |})
      as [Hm _]. fold (mount p ethereum) in Hm.
    split; [by right|]. intros inst Hl Hp. split; [|done].
    by apply (fetch_effect_pending_no_error p ethereum _ inst).
  - intros Hlen. pose proof (reachable_nonempty c Hr) as Hn.
    assert (Hlen0 : length (instances c) = 1).
    { destruct (step_length _ _ _ Hs) as [E|[E _]]; lia. }
    destruct (IH Hlen0) as [IH1 IH2].
    assert (Hid : ∀ j i0, instances c !! j = Some i0 → j = 0).
    { intros j i0 Hj%lookup_lt_Some. lia. }
    destruct (step_inv _ _ _ Hs) as
      [(p & eth & -> & [[_ Hf]|[_ Hre]])
      |[(j & uri & i0 & -> & Hl0 & [prov [a [t Hp0]]] & ->)
      |[(j & data & i0 & -> & Hl0 & [url Hp0] & _ & ->)
      |[(j & data & i0 & -> & Hl0 & [url Hp0] & _ & ->)
      |[(j & err & i0 & -> & Hl0 & Hp0 & ->)
      |[-> Hf]]]]]]; simpl;
      try (pose proof (Hid _ _ Hl0) as ->).
    + destruct (flush_frame _ _ Hf) as (_ & -> & -> & -> & _). done.
    + destruct (rerender_frame _ _ _ _ Hre) as (_ & Hi & _). rewrite Hi in Hlen.
      rewrite fetch_effect_length in Hlen. lia.
    + destruct (IH2 i0 Hl0) as [-> ->]; [by rewrite Hp0|]. split; [by left|done].
    + split; [done|]. rewrite list_lookup_alter_eq, Hl0. by intros inst [= <-].
    + destruct (IH2 i0 Hl0) as [-> _]; [by rewrite Hp0|]. split; [by left|].
      rewrite list_lookup_alter_eq, Hl0. by intros inst [= <-].
    + destruct (IH2 i0 Hl0) as [_ ->]; [done|]. split; [by right|].
      rewrite list_lookup_alter_eq, Hl0. by intros inst [= <-].
    + destruct (flush_frame _ _ Hf) as (_ & -> & -> & -> & _). done.
Qed.

(** X9: within the first request (no change of props yet) an error and
    metadata exclude each other, and while its promise is outstanding there
    is neither. *)
Theorem first_request_outcomes_exclusive (c : Component) :
  reachable c → first_request_outcome c.
Proof. apply reachable_first_request. Qed.

Lemma first_request_outcomes_exclusive_witness :
  error (view (mount request_1 false)) = None
  ∨ metadata (view (mount request_1 false)) = VNull.
Proof.
  apply (first_request_outcomes_exclusive (mount request_1 false)
           (reachable_mount request_1 false)).
  reflexivity.
Defined.

(** X10: there is no timer and no retry.  Once no promise is outstanding and
    the effect on [metadata] has run, no event changes anything until one of
    the four props changes. *)
Theorem quiescent_until_props_change (c : Component) (e : event) (c' : Component) :
  idle c → metadata_changed c = false →
  (∀ p ethereum, e = Render p ethereum → props c = p) →
  step c e = Some (Ok c') →
  c' = c.
Proof.
  intros Hidle Hch Hprops Hs.
  assert (Hf : flush c = Ok c) by (unfold flush; by rewrite Hch).
  destruct (step_inv _ _ _ Hs) as
    [(p & eth & -> & [[_ Hf1]|[Hne _]])
    |[(j & uri & i0 & -> & Hl0 & [prov [a [t Hp0]]] & ->)
    |[(j & data & i0 & -> & Hl0 & [url Hp0] & _ & ->)
    |[(j & data & i0 & -> & Hl0 & [url Hp0] & _ & ->)
    |[(j & err & i0 & -> & Hl0 & Hp0 & ->)
    |[-> Hf1]]]]]];
    try (pose proof (Hidle _ _ Hl0); congruence).
  - congruence.
  - destruct Hne. by apply (Hprops p eth).
  - congruence.
Qed.

Lemma idle_mount p ethereum :
  dispatch p = None → idle (mount p ethereum) ∧ metadata_changed (mount p ethereum) = false.
Proof.
  intros Hd. unfold mount, fetch_effect. rewrite Hd. simpl. split; [|done].
  intros [|id] inst; [by intros [= <-]|done].
Qed.

Lemma quiescent_until_props_change_witness :
  step (mount {| metadataUrl := ""; contractAddress := "0xabc"; tokenId := "";
                 providerUrl := "" |} true) Flush
  = Some (Ok (mount {| metadataUrl := ""; contractAddress := "0xabc"; tokenId := "";
                       providerUrl := "" |} true)).
Proof.
  destruct (idle_mount {| metadataUrl := ""; contractAddress := "0xabc"; tokenId := "";
                          providerUrl := "" |} true eq_refl) as [Hi Hc].
  destruct (step _ Flush) as [[c'|]|] eqn:Es; try discriminate Es.
  do 2 f_equal.
  apply (quiescent_until_props_change _ Flush c' Hi Hc); [discriminate | exact Es].
Defined.

(** ** From the request to the asset *)

Lemma mount_direct p ethereum :
  metadataUrl p ≠ "" →
  mount p ethereum
  = {| props := p; view := initial_view;
       instances := [{| cancelled := false;
                        pending := AwaitGet (ipfsToHttp (metadataUrl p)) |}];
       metadata_changed := false |}.
Proof.
  intros Hmu. unfold mount, fetch_effect, dispatch, fetchFromMetadataUrl.
  by rewrite (truthy_nonempty _ Hmu).
Qed.

Lemma mount_contract p ethereum :
  metadataUrl p = "" → contractAddress p ≠ "" → tokenId p ≠ "" →
  providerUrl p ≠ "" ∨ ethereum = true →
  ∃ prov,
    mount p ethereum
    = {| props := p; view := initial_view;
         instances := [{| cancelled := false;
                          pending := AwaitTokenURI prov (contractAddress p) (tokenId p) |}];
         metadata_changed := false |}.
Proof.
  intros Hmu Hca Hti Hprov. unfold mount, fetch_effect, dispatch, fetchFromContract.
  rewrite Hmu, (truthy_nonempty _ Hca), (truthy_nonempty _ Hti). simpl.
  destruct (JsString.truthy (providerUrl p)) eqn:Ep; simpl; [by eexists|].
  destruct Hprov as [Hpu| ->]; [|by eexists].
  by rewrite (truthy_nonempty _ Hpu) in Ep.
Qed.

(** What a fresh instance that awaits its GET comes to when the GET fulfils
    and the effect on [metadata] runs. *)
Lemma awaiting_get_outcome pr url data :
  run {| props := pr; view := initial_view;
         instances := [{| cancelled := false; pending := AwaitGet url |}];
         metadata_changed := false |}
      [Resolved 0 data; Flush]
  = Some (bind (metadata_effect (setMetadata data initial_view)) (λ v,
            Ok {| props := pr; view := v;
                  instances := [{| cancelled := false; pending := Settled |}];
                  metadata_changed := false |})).
Proof.
  simpl. unfold flush, update_instance. simpl.
  destruct data; simpl; try done;
    match goal with |- context [metadata_effect ?v] => by destruct (metadata_effect v) end.
Qed.

(** X11: a direct request from start to end.  The GET goes to the normalised
    metadata URL; when it fulfils and the effect has run, [metadata] is the
    body, [error] is empty and [assetUrl] is the normalised first truthy
    asset field when that is a string, and empty when the body is falsy or
    has no truthy asset field; when it rejects, [error] holds the message and
    the rest stays reset. *)
Theorem direct_request_outcome (p : Props) (ethereum : bool) (data : value) (err : exn) :
  metadataUrl p ≠ "" →
  instances (mount p ethereum)
    = [{| cancelled := false; pending := AwaitGet (ipfsToHttp (metadataUrl p)) |}]
  ∧ (∀ s, truthy data = true → first_candidate data = Some (VStr s) →
          view_of (run (mount p ethereum) [Resolved 0 data; Flush])
          = Some {| metadata := data; assetUrl := ipfsToHttp s; error := None |})
  ∧ (truthy data = false ∨ first_candidate data = None →
     view_of (run (mount p ethereum) [Resolved 0 data; Flush])
     = Some {| metadata := data; assetUrl := ""; error := None |})
  ∧ view_of (run (mount p ethereum) [Rejected 0 err])
    = Some {| metadata := VNull; assetUrl := ""; error := Some (message err) |}.
Proof.
  intros Hmu. rewrite (mount_direct p ethereum Hmu). split_and!; [done|..|done].
  - intros s Ht Hf. rewrite awaiting_get_outcome.
    unfold metadata_effect. simpl. by rewrite Ht, Hf.
  - intros Hcase. rewrite awaiting_get_outcome. unfold metadata_effect. simpl.
    destruct (truthy data); simpl; [|done].
    destruct Hcase as [?|Hf]; [done|]. by rewrite Hf.
Qed.

Lemma direct_request_outcome_witness :
  view_of (run (mount request_1 false) [Resolved 0 document_1; Flush])
  = Some {| metadata := document_1; assetUrl := "https://ipfs.io/ipfs/Qm2/img.png";
            error := None |}
  ∧ view_of (run (mount request_1 false) [Resolved 0 (VStr "<html>"); Flush])
    = Some {| metadata := VStr "<html>"; assetUrl := ""; error := None |}.
Proof.
  assert (Hmu : metadataUrl request_1 ≠ "") by discriminate.
  split.
  - destruct (direct_request_outcome request_1 false document_1 (Error "") Hmu)
      as (_ & H & _).
    apply (H "ipfs://Qm2/img.png"); reflexivity.
  - destruct (direct_request_outcome request_1 false (VStr "<html>") (Error "") Hmu)
      as (_ & _ & H & _).
    apply H. by right.
Defined.

(** X12: a truthy asset field that is not a string is not caught.  When the
    first truthy asset field of the body is a number, an array, an object or
    [true], the effect on [metadata] throws a TypeError out of
    [ipfsToHttp]: nothing is recorded in [error] and the component is
    unmounted. *)
Theorem non_string_asset_unmounts (p : Props) (ethereum : bool) (data first : value) :
  metadataUrl p ≠ "" →
  truthy data = true → first_candidate data = Some first →
  (∀ s, first ≠ VStr s) →
  run (mount p ethereum) [Resolved 0 data; Flush]
  = Some (Throw (TypeError "url.startsWith is not a function")).
Proof.
  intros Hmu Ht Hf Hs. rewrite (mount_direct p ethereum Hmu), awaiting_get_outcome.
  unfold metadata_effect. simpl. rewrite Ht, Hf. simpl.
  destruct (find_some truthy (candidates data) Hf) as [_ Hft].
  destruct first; simpl in *; try done; try by rewrite Hft.
  by destruct (Hs s).
Qed.

Lemma non_string_asset_unmounts_witness :
  run (mount request_1 false)
    [Resolved 0 (VObj {[ "image" := VObj {[ "url" := VStr "a.png" ]} ]}); Flush]
  = Some (Throw (TypeError "url.startsWith is not a function")).
Proof.
  apply (non_string_asset_unmounts request_1 false _
           (VObj {[ "url" := VStr "a.png" ]}));
    [discriminate | reflexivity | reflexivity | discriminate].
Defined.

(** X13: a contract lookup joins the direct path.  With a provider at hand
    the effect awaits [tokenURI]; once that fulfils, the instance awaits the
    GET of the normalised token URI, and from there on the run is the run of
    a direct request: the same state cells for the same body. *)
Theorem contract_request_joins_direct
    (p q : Props) (ethereum eth' : bool) (uri : string) (data : value) :
  metadataUrl p = "" → contractAddress p ≠ "" → tokenId p ≠ "" →
  providerUrl p ≠ "" ∨ ethereum = true →
  metadataUrl q ≠ "" →
  (∃ prov, instances (mount p ethereum)
           = [{| cancelled := false;
                 pending := AwaitTokenURI prov (contractAddress p) (tokenId p) |}])
  ∧ run (mount p ethereum) [TokenURI 0 uri]
    = Some (Ok {| props := p; view := initial_view;
                  instances := [{| cancelled := false;
                                   pending := AwaitGet (ipfsToHttp uri) |}];
                  metadata_changed := false |})
  ∧ view_of (run (mount p ethereum) [TokenURI 0 uri; Resolved 0 data; Flush])
    = view_of (run (mount q eth') [Resolved 0 data; Flush]).
Proof.
  intros Hmu Hca Hti Hprov Hq.
  destruct (mount_contract p ethereum Hmu Hca Hti Hprov) as [prov ->].
  rewrite (mount_direct q eth' Hq). split_and!; [by exists prov|done|].
  rewrite awaiting_get_outcome.
  change (run _ [TokenURI 0 uri; Resolved 0 data; Flush])
    with (run {| props := p; view := initial_view;
                 instances := [{| cancelled := false;
                                  pending := AwaitGet (ipfsToHttp uri) |}];
                 metadata_changed := false |} [Resolved 0 data; Flush]).
  rewrite awaiting_get_outcome.
  by destruct (metadata_effect (setMetadata data initial_view)).
Qed.

Lemma contract_request_joins_direct_witness :
  run (mount contract_request true) [TokenURI 0 "ipfs://QmT/1.json"]
  = Some (Ok {| props := contract_request; view := initial_view;
                instances := [{| cancelled := false;
                                 pending := AwaitGet "https://ipfs.io/ipfs/QmT/1.json" |}];
                metadata_changed := false |}).
Proof.
  apply (contract_request_joins_direct contract_request request_1 true false
           "ipfs://QmT/1.json" VNull);
    [reflexivity | discriminate | discriminate | by right | discriminate].
Defined.

(** ** The panel *)

Lemma read_opt_truthy m k : truthy m = true → read_opt m k = get m k.
Proof. by destruct m. Qed.

Lemma chip_of_ok i a :
  nullish a = false →
  chip_of i a
  = Ok {| chip_key := i;
          chip_label := or_value (get a "trait_type") (get a "type");
          chip_value := get a "value" |}.
Proof.
  intros Hn. unfold chip_of, or_value.
  destruct a; try done; simpl; by destruct (truthy _).
Qed.

Lemma chip_of_throws i a : nullish a = true → ∃ e, chip_of i a = Throw e.
Proof. destruct a; try done; by eexists. Qed.

Lemma map_chips_ok k items :
  (∀ a, a ∈ items → nullish a = false) →
  ∃ cs, map_chips k items = Ok cs
        ∧ length cs = length items
        ∧ ∀ i a, items !! i = Some a →
            cs !! i = Some {| chip_key := k + i;
                              chip_label := or_value (get a "trait_type") (get a "type");
                              chip_value := get a "value" |}.
Proof.
  revert k. induction items as [|a items IH]; intros k Hn.
  - exists []. by split_and!.
  - destruct (IH (S k)) as (cs & Hcs & Hlen & Hi).
    { intros b Hb. apply Hn. by right. }
    eexists. simpl. rewrite chip_of_ok by (apply Hn; by left). simpl.
    rewrite Hcs. simpl. split_and!; [done|simpl; by rewrite Hlen|].
    intros [|i] b; simpl.
    + intros [= <-]. by rewrite Nat.add_0_r.
    + intros Hb. rewrite (Hi i b Hb). do 2 f_equal. lia.
Qed.

Lemma map_chips_throws k items :
  (∃ e, map_chips k items = Throw e) ↔ ∃ a, a ∈ items ∧ nullish a = true.
Proof.
  revert k. induction items as [|a items IH]; intros k; simpl.
  - split; [by intros [e ?]|]. by intros (a & ?%elem_of_nil & _).
  - destruct (nullish a) eqn:Ea.
    + destruct (chip_of_throws k a Ea) as [e ->]. simpl. split; [|by eexists].
      intros _. exists a. split; [by left|done].
    + rewrite chip_of_ok by done. simpl. specialize (IH (S k)).
      destruct (map_chips (S k) items) as [cs|e]; simpl.
      * split; [by intros [e ?]|]. intros (b & [->|Hb]%elem_of_cons & Hn); [congruence|].
        destruct IH as [_ IH]. destruct IH as [e ?]; [by exists b|done].
      * split; [|by eexists]. intros _. destruct IH as [IH _].
        destruct IH as (b & Hb & Hn); [by eexists|]. exists b. split; [by right|done].
Qed.

Lemma attributes_of_throws m :
  truthy m = true →
  (∃ e, attributes_of m = Throw e) ↔
  truthy (get m "attributes") = true
  ∧ ∀ items, get m "attributes" = VArr items → ∃ a, a ∈ items ∧ nullish a = true.
Proof.
  intros Hm. unfold attributes_of. rewrite (read_opt_truthy _ _ Hm).
  destruct (truthy (get m "attributes")) eqn:Et.
  - destruct (get m "attributes") as [| | | | |items|] eqn:Ea; simpl in *; try done;
      try (split; [by intros _; split; [done|intros ? [=]] | by eexists]).
    pose proof (map_chips_throws 0 items) as Hthrows.
    destruct (map_chips 0 items) as [cs|e]; simpl.
    + split; [by intros [e ?]|]. intros [_ H].
      destruct Hthrows as [_ [e ?]]; [by apply H|done].
    + split; [|by eexists]. intros _. split; [done|]. intros ? [= <-].
      apply Hthrows. by eexists.
  - split; [by intros [e ?]|]. by intros [? _].
Qed.

(** X14: the only throw of a render is that of the attribute list.  The
    component function with its MetaBox (what React and the child components
    do afterwards is not counted) throws exactly when the panel is shown,
    there is metadata, and its [attributes] field is truthy without being an
    array (a string, a number, an object) or is an array with a [null] in
    it; with [showMetadata] off it never throws. *)
Theorem render_throws_iff (showMetadata : bool) (c : Component) :
  (∃ e, render showMetadata c = Throw e) ↔
  showMetadata = true
  ∧ truthy (metadata (view c)) = true
  ∧ truthy (get (metadata (view c)) "attributes") = true
  ∧ ∀ items, get (metadata (view c)) "attributes" = VArr items →
             ∃ a, a ∈ items ∧ nullish a = true.
Proof.
  unfold render. destruct showMetadata; simpl; [|split; [by intros [e ?]|by intros [? _]]].
  unfold metadata_panel, MetaBox.
  destruct (truthy (metadata (view c))) eqn:Et; simpl.
  - rewrite <- (attributes_of_throws _ Et).
    destruct (attributes_of (metadata (view c))) as [a|e]; simpl.
    + split; [by intros [e ?]|]. by intros (_ & _ & e & ?).
    + split; [|by eexists]. intros _. split_and!; [done..|by eexists].
  - split; [by intros [e ?]|]. by intros (_ & ? & _).
Qed.

(** X15: the chips of a well-formed attribute list.  When [attributes] is an
    array without [null], the MetaBox is built, with one chip per attribute,
    in order and keyed by position, labelled by [trait_type] or else [type];
    an empty array gives an empty list of chips.  The title is the name when
    that is truthy and "Token " + tokenId otherwise, so it is never falsy. *)
Theorem MetaBox_of_wellformed (m : value) (tokenId : string) (items : list value) :
  get m "attributes" = VArr items →
  (∀ a, a ∈ items → nullish a = false) →
  ∃ cs,
    MetaBox m tokenId
    = Ok {| title := or_value (get m "name") (VStr ("Token " +:+ tokenId));
            description := get m "description";
            attributes := Chips cs |}
    ∧ truthy (or_value (get m "name") (VStr ("Token " +:+ tokenId))) = true
    ∧ length cs = length items
    ∧ ∀ i a, items !! i = Some a →
        cs !! i = Some {| chip_key := i;
                          chip_label := or_value (get a "trait_type") (get a "type");
                          chip_value := get a "value" |}.
Proof.
  intros Ha Hn. destruct (map_chips_ok 0 items Hn) as (cs & Hcs & Hlen & Hi).
  exists cs. assert (Hm : truthy m = true) by by destruct m.
  unfold MetaBox, attributes_of. rewrite !(read_opt_truthy _ _ Hm), Ha. simpl.
  rewrite Hcs. simpl. split_and!; [done| |done|done].
  unfold or_value. by destruct (truthy (get m "name")) eqn:E.
Qed.

Lemma MetaBox_of_wellformed_witness :
  ∃ cs,
    MetaBox (VObj {[ "attributes" :=
                       VArr [VObj {[ "trait_type" := VStr "Eyes"; "value" := VStr "Blue" ]};
                             VObj {[ "type" := VStr "Hat"; "value" := VStr "None" ]}] ]})
            "7"
    = Ok {| title := VStr "Token 7"; description := VUndefined; attributes := Chips cs |}
    ∧ cs !! 1 = Some {| chip_key := 1; chip_label := VStr "Hat"; chip_value := VStr "None" |}.
Proof.
  edestruct (MetaBox_of_wellformed
               (VObj {[ "attributes" :=
                          VArr [VObj {[ "trait_type" := VStr "Eyes"; "value" := VStr "Blue" ]};
                                VObj {[ "type" := VStr "Hat"; "value" := VStr "None" ]}] ]})
               "7") as (cs & H & _ & _ & Hi).
  - reflexivity.
  - intros a Ha.
    repeat (apply elem_of_cons in Ha as [->|Ha]; [reflexivity|]).
    by apply elem_of_nil in Ha.
  - exists cs. split; [exact H | exact (Hi 1 _ eq_refl)].
Defined.

Lemma elem_of_three {A} (x a b c : A) : x ∈ [a; b; c] ↔ x = a ∨ x = b ∨ x = c.
Proof. rewrite !elem_of_cons, elem_of_nil. tauto. Qed.

(** X16: what the panel shows.  When it is built it has three children, at
    least one of them an element: the error line exactly when [error] is a
    non-empty message, the loading line exactly when there is neither
    metadata nor such an error (so also when nothing was ever requested, and
    after a falsy body), the MetaBox exactly when [metadata] is truthy. *)
Theorem panel_elements (tokenId : string) (v : ViewerState) (cs : list panel_child) :
  metadata_panel tokenId v = Ok cs →
  length cs = 3
  ∧ existsb is_element cs = true
  ∧ (∀ m, ErrorLine m ∈ cs ↔ error v = Some m ∧ m ≠ "")
  ∧ (LoadingLine ∈ cs ↔
     truthy (metadata v) = false ∧ ¬ ∃ m, error v = Some m ∧ m ≠ "")
  ∧ ((∃ b, MetaBoxElement b ∈ cs) ↔ truthy (metadata v) = true).
Proof.
  unfold metadata_panel.
  destruct (truthy (metadata v)) eqn:Et; simpl.
  - destruct (MetaBox (metadata v) tokenId) as [b|]; simpl; [|done].
    intros [= <-]. split_and!; [done|by destruct (error v) as [[|a e]|]| | |].
    + intros m. rewrite elem_of_three. destruct (error v) as [[|a e]|]; simpl.
      * split; [by intros [[=]|[[=]|[=]]] | intros [[= <-] H]; by destruct H].
      * split; [intros [[= ->]|[[=]|[=]]]; by split | intros [[= <-] _]; by left].
      * split; [by intros [[=]|[[=]|[=]]] | by intros [[=] _]].
    + rewrite elem_of_three. split; [|by intros [[=] _]].
      destruct (error v) as [[|a e]|]; by intros [[=]|[[=]|[=]]].
    + split; [done|]. intros _. exists b. rewrite elem_of_three. auto.
  - intros [= <-]. split_and!; [done|by destruct (error v) as [[|a e]|]| | |].
    + intros m. rewrite elem_of_three. destruct (error v) as [[|a e]|]; simpl.
      * split; [by intros [[=]|[[=]|[=]]] | intros [[= <-] H]; by destruct H].
      * split; [intros [[= ->]|[[=]|[=]]]; by split | intros [[= <-] _]; by left].
      * split; [by intros [[=]|[[=]|[=]]] | by intros [[=] _]].
    + rewrite elem_of_three. destruct (error v) as [[|a e]|]; simpl.
      * split; [|by auto]. intros _. split; [done|].
        intros (m & [= <-] & H). by destruct H.
      * split; [by intros [[=]|[[=]|[=]]]|]. intros [_ H]. destruct H. by eexists.
      * split; [|by auto]. intros _. split; [done|]. by intros (m & [=] & _).
    + split; [|done]. intros [b Hb]. rewrite elem_of_three in Hb.
      destruct (error v) as [[|a e]|]; simpl in Hb; by destruct Hb as [?|[?|?]].
Qed.

Lemma panel_elements_witness :
  LoadingLine ∈ [Skipped VNull; LoadingLine; Skipped VNull].
Proof.
  apply (panel_elements "1" initial_view [Skipped VNull; LoadingLine; Skipped VNull]
           eq_refl).
  split; [reflexivity|]. by intros (m & [=] & _).
Defined.

(** X17: within the first request the panel, when it is built, shows
    exactly one of its three elements. *)
Theorem first_request_panel (c : Component) (cs : list panel_child) :
  reachable c → length (instances c) = 1 →
  metadata_panel (tokenId (props c)) (view c) = Ok cs →
  length (filter (λ x, is_element x = true) cs) = 1.
Proof.
  intros Hr Hlen. destruct (reachable_first_request c Hr Hlen) as [Hex _].
  unfold metadata_panel.
  destruct (truthy (metadata (view c))) eqn:Et; simpl.
  - destruct (MetaBox _ _) as [b|]; simpl; [|done]. intros [= <-].
    destruct Hex as [->|Hm]; [done|]. by rewrite Hm in Et.
  - intros [= <-]. by destruct (error (view c)) as [[|a e]|].
Qed.

Lemma first_request_panel_witness :
  length (filter (λ x, is_element x = true)
            [Skipped VNull; LoadingLine; Skipped VNull]) = 1.
Proof.
  apply (first_request_panel (mount request_1 false)
           [Skipped VNull; LoadingLine; Skipped VNull]
           (reachable_mount request_1 false));
    reflexivity.
Defined.

(** ** The canvas *)

Section Canvas.
Import RegExp Patterns.

Lemma render_asset_nonempty url : url ≠ "" → render_asset url ≠ [].
Proof.
  intros Hne. unfold render_asset, shows_model, shows_image, shows_embed.
  rewrite (truthy_nonempty _ Hne). simpl.
  change embed_re
    with (([lit ".gltf" ++ [End]; lit ".glb" ++ [End]] ++ image_re)%list).
  change model_re
    with (([lit ".gltf" ++ [End]; lit ".glb" ++ [End]]
           ++ [lit "model/" ++ [AnyStar] ++ lit "gltf"])%list).
  rewrite !test_app.
  by destruct (test [lit ".gltf" ++ [End]; lit ".glb" ++ [End]]%list url),
    (test image_re url),
    (test [lit "model/" ++ [AnyStar] ++ lit "gltf"]%list url).
Qed.

End Canvas.

(** X18: as long as no change of props is rendered while a fetched document
    awaits the effect on [metadata], the canvas, once that effect has run,
    is empty exactly when there is no metadata or the metadata has no truthy
    asset field; whenever the document names an asset, at least one render
    path shows it. *)
Theorem canvas_empty_iff (c : Component) :
  orderly c → metadata_changed c = false →
  render_asset (assetUrl (view c)) = [] ↔
  truthy (metadata (view c)) = false ∨ first_candidate (metadata (view c)) = None.
Proof.
  intros Ha%orderly_invariant Hch.
  pose proof (inv_flushed c Ha Hch) as Hd. unfold derived_from in Hd.
  destruct (truthy (metadata (view c))) eqn:Et.
  - destruct (first_candidate (metadata (view c))) as [first|] eqn:Ef.
    + destruct (find_some truthy (candidates (metadata (view c))) Ef) as [_ Hft].
      destruct first; try done. rewrite Hd. split; [|by intros [?|?]].
      intros H. destruct (render_asset_nonempty (ipfsToHttp s)); [|done].
      rewrite ipfsToHttp_empty. by destruct s.
    + rewrite Hd. split; [by right|done].
  - rewrite Hd. split; [by left|done].
Qed.

Lemma canvas_empty_iff_witness :
  render_asset (assetUrl (view (mount request_1 false))) = [].
Proof.
  apply (canvas_empty_iff (mount request_1 false) (orderly_mount request_1 false));
    [reflexivity | by left].
Defined.

(** X19: while the current request is in flight [metadata] is [null]: the
    panel, if shown, has no MetaBox, and without an error from a superseded
    request it is the loading line alone.  The canvas shows what [assetUrl]
    holds; it is empty as long as no change of props was rendered while a
    fetched document awaited the effect on [metadata]. *)
Theorem in_flight_rendering (c : Component) (inst : instance) (showMetadata : bool) :
  reachable c →
  instances c !! current c = Some inst → pending inst ≠ Settled →
  ∃ p, render showMetadata c
       = Ok {| canvas := render_asset (assetUrl (view c)); panel := p |}
       ∧ (orderly c → render_asset (assetUrl (view c)) = [])
       ∧ (p = None ↔ showMetadata = false)
       ∧ ∀ cs, p = Some cs →
           (∀ b, MetaBoxElement b ∉ cs)
           ∧ (error (view c) = None → cs = [Skipped VNull; LoadingLine; Skipped VNull]).
Proof.
  intros Hr Hl Hp. pose proof (reachable_invariant c Hr) as Hc.
  pose proof (inv_pending c Hc inst Hl Hp) as Hm.
  assert (Hu : orderly c → render_asset (assetUrl (view c)) = []).
  { intros Ha%orderly_invariant.
    destruct (inv_asset c Ha) as [->|Hd]; [done|].
    apply derived_from_falsy in Hd as ->; [done|by rewrite Hm]. }
  unfold render, metadata_panel. rewrite Hm. simpl.
  destruct showMetadata; simpl; eexists; (split; [reflexivity|]);
    (split; [exact Hu|]); split; try done.
  intros cs [= <-]. split.
  - intros b Hb. rewrite elem_of_three in Hb.
    destruct (error (view c)) as [[|a e]|]; simpl in Hb; naive_solver.
  - by intros ->.
Qed.

Lemma in_flight_rendering_witness :
  render true (mount request_1 false)
  = Ok {| canvas := []; panel := Some [Skipped VNull; LoadingLine; Skipped VNull] |}.
Proof.
  destruct (in_flight_rendering (mount request_1 false)
              {| cancelled := false;
                 pending := AwaitGet "https://ipfs.io/ipfs/Qm1/metadata.json" |}
              true (reachable_mount request_1 false) eq_refl)
    as (p & Hr & _ & _ & Hcs); [discriminate|].
  rewrite Hr. destruct p as [cs|]; [|discriminate Hr].
  destruct (Hcs cs eq_refl) as [_ ->]; reflexivity.
Defined.
